(** * deno-gfm: Markdown rendering and plain-text stripping (mod.ts)

    A shallow embedding of [mod.ts] and the properties of its rendering
    rules, sanitizer configuration, math preprocessor and section stripper.

    Embedded: the YouTube helpers, the rules [heading], [image], [code],
    [link] and [blockquote] of [Renderer] with the alert helpers, [mathify],
    [getOpts], [render] with the hook it installs and the options it hands
    to the sanitizer, [mergeAttributes], [stripTokens], the [codespan] rule
    of [StripTokenizer], [stripSplitBySections] and [strip]. Not embedded:
    [minify], which the rules take as a function on strings, [listitem] and
    [checkbox].

    Conventions.
    - A JavaScript string is the list of its UTF-16 code units ([list N]).
    - The collaborators that [mod.ts] imports (marked, sanitize-html, katex,
      Prism, he, github-slugger, emoji, the URL constructor, the case
      mappings of the JS runtime) are section variables: every statement
      holds for any behaviour of theirs.
    - A call that may throw returns a [result]; [try]/[catch] is [try_catch].
      The URL constructor and katex may throw, wherever [mod.ts] calls
      them; the other collaborators are taken to return.
    - The parser works on the renderer instance by calling its rules: a run
      of the parser is a [Rendering], and [run] plays it on the instance.
      The options object holds the instance by reference, so that [render]
      returns the options with the instance as the run leaves it. *)

From stdpp Require Import gmap list strings.
From Stdlib Require Import NArith ZArith Lia Ascii.

Local Open Scope N_scope.

(** ** JavaScript strings *)

Abbreviation jsstring := (list N).

(** The code units of an ASCII literal. *)
Definition js (s : string) : jsstring :=
  (λ a, N_of_ascii a) <$> String.list_ascii_of_string s.

(** The double quote character, the line feed. *)
Definition dq : jsstring := [34].
Definition LF : N := 10.
Definition nl : jsstring := [LF].

(** ECMAScript WhiteSpace and LineTerminator code units: what
    [String.prototype.trim] removes and what [\s] matches. *)
Definition isWhiteSpace (c : N) : bool :=
  (c =? 9) || (c =? 10) || (c =? 11) || (c =? 12) || (c =? 13) || (c =? 32)
  || (c =? 160) || (c =? 5760) || ((8192 <=? c) && (c <=? 8202))
  || (c =? 8232) || (c =? 8233) || (c =? 8239) || (c =? 8287)
  || (c =? 12288) || (c =? 65279).

(** ECMAScript LineTerminator: what [.] does not match. *)
Definition isLineTerminator (c : N) : bool :=
  (c =? 10) || (c =? 13) || (c =? 8232) || (c =? 8233).

Fixpoint trimStart (s : jsstring) : jsstring :=
  match s with
  | c :: s' => if isWhiteSpace c then trimStart s' else s
  | [] => []
  end.

Definition trimEnd (s : jsstring) : jsstring :=
  reverse (trimStart (reverse s)).

(** [String.prototype.trim] *)
Definition trim (s : jsstring) : jsstring := trimEnd (trimStart s).

(** [s.startsWith(p)] *)
Fixpoint startsWith (s p : jsstring) : bool :=
  match p, s with
  | [], _ => true
  | a :: p', b :: s' => (a =? b) && startsWith s' p'
  | _ :: _, [] => false
  end.

(** [s.indexOf(p)] searched from offset [i]; [-1] when [p] does not occur. *)
Fixpoint indexOf_from (i : Z) (s p : jsstring) : Z :=
  if startsWith s p then i
  else match s with
       | [] => (-1)%Z
       | _ :: s' => indexOf_from (i + 1)%Z s' p
       end.

Definition indexOf (s p : jsstring) : Z := indexOf_from 0%Z s p.

(** [s.includes(p)] *)
Fixpoint includes (s p : jsstring) : bool :=
  startsWith s p ||
  match s with
  | [] => false
  | _ :: s' => includes s' p
  end.

(** [s.substring(i, j)]: both ends are clamped to [0, s.length] and swapped
    when [i > j]. *)
Definition clamp (s : jsstring) (i : Z) : nat :=
  Z.to_nat (Z.min (Z.max i 0) (Z.of_nat (length s))).

Definition substring (s : jsstring) (i j : Z) : jsstring :=
  let a := clamp s i in
  let b := clamp s j in
  take (Nat.max a b - Nat.min a b) (drop (Nat.min a b) s).

(** [s.substring(i)] *)
Definition substring_from (s : jsstring) (i : Z) : jsstring :=
  drop (clamp s i) s.

(** [s.slice(i, j)]: negative offsets count from the end; no swap. *)
Definition slice_index (s : jsstring) (i : Z) : nat :=
  if (i <? 0)%Z then Z.to_nat (Z.max (Z.of_nat (length s) + i) 0)
  else Z.to_nat (Z.min i (Z.of_nat (length s))).

Definition slice (s : jsstring) (i j : Z) : jsstring :=
  let a := slice_index s i in
  let b := slice_index s j in
  take (b - a) (drop a s).

Definition slice_from (s : jsstring) (i : Z) : jsstring :=
  drop (slice_index s i) s.

(** Truthiness of a string value: the empty string is falsy. *)
Definition truthy (s : jsstring) : bool :=
  match s with [] => false | _ => true end.

(** Truthiness of [string | null | undefined]. *)
Definition truthy_opt (o : option jsstring) : bool :=
  match o with Some s => truthy s | None => false end.

(** ** Exceptions *)

Inductive exn : Type :=
| TypeError
| Thrown (code : N).

Inductive result (A : Type) : Type :=
| Ok (a : A)
| Throw (e : exn).
Arguments Ok {A} a.
Arguments Throw {A} e.

#[global] Instance result_ret : MRet result := λ A a, Ok a.
#[global] Instance result_bind : MBind result := λ A B f m,
  match m with
  | Ok a => f a
  | Throw e => Throw e
  end.

(** [try { m } catch (e) { handler e }] *)
Definition try_catch {A} (m : result A) (handler : exn → result A) : result A :=
  match m with
  | Ok a => Ok a
  | Throw e => handler e
  end.

(** ** Regular expressions

    The fragment of ECMAScript regular expressions that [mod.ts] uses:
    character classes, sequence, ordered alternative, greedy and lazy
    repetition, one capture group and positive lookahead, matched by
    backtracking in the order ECMAScript prescribes. *)

Inductive regex : Type :=
| REmpty
| RChar (p : N → bool)
| RSeq (r1 r2 : regex)
| RAlt (r1 r2 : regex)
| RStar (greedy : bool) (r : regex)
| RGroup (r : regex)
| RLook (r : regex).

Definition RLit (c : N) : regex := RChar (N.eqb c).

Fixpoint RStr (s : jsstring) : regex :=
  match s with
  | [] => REmpty
  | c :: s' => RSeq (RLit c) (RStr s')
  end.

(** [r?] *)
Definition ROpt (r : regex) : regex := RAlt r REmpty.
(** [r+] and [r+?] *)
Definition RPlus (greedy : bool) (r : regex) : regex := RSeq r (RStar greedy r).
(** [r{n}] *)
Fixpoint RRep (n : nat) (r : regex) : regex :=
  match n with
  | O => REmpty
  | S n' => RSeq r (RRep n' r)
  end.

(** [.], [\s], [\S] *)
Definition RDot : regex := RChar (λ c, negb (isLineTerminator c)).
Definition RSpace : regex := RChar isWhiteSpace.
Definition RNonSpace : regex := RChar (λ c, negb (isWhiteSpace c)).

(** The state of a match: the input still to read and capture group 1. *)
Definition mstate : Type := jsstring * option jsstring.
Definition mcont : Type := jsstring → option jsstring → option mstate.

(** An iteration of a repetition that consumes nothing is rejected, so a
    repetition over [s] iterates at most [length s] times. *)
Fixpoint star_loop (greedy : bool)
    (body : jsstring → option jsstring → mcont → option mstate)
    (n : nat) (s : jsstring) (c : option jsstring) (k : mcont) : option mstate :=
  match n with
  | O => k s c
  | S n' =>
    if greedy then
      match body s c (λ s' c',
              if (length s' <? length s)%nat
              then star_loop greedy body n' s' c' k else None) with
      | Some m => Some m
      | None => k s c
      end
    else
      match k s c with
      | Some m => Some m
      | None =>
        body s c (λ s' c',
          if (length s' <? length s)%nat
          then star_loop greedy body n' s' c' k else None)
      end
  end.

Fixpoint rmatch (r : regex) (s : jsstring) (c : option jsstring) (k : mcont)
    {struct r} : option mstate :=
  match r with
  | REmpty => k s c
  | RChar p =>
    match s with
    | x :: s' => if p x then k s' c else None
    | [] => None
    end
  | RSeq r1 r2 => rmatch r1 s c (λ s' c', rmatch r2 s' c' k)
  | RAlt r1 r2 =>
    match rmatch r1 s c k with
    | Some m => Some m
    | None => rmatch r2 s c k
    end
  | RStar g r' => star_loop g (rmatch r') (length s) s c k
  | RGroup r' =>
    rmatch r' s c (λ s' _, k s' (Some (take (length s - length s') s)))
  | RLook r' =>
    match rmatch r' s c (λ s' c', Some (s', c')) with
    | Some (_, c') => k s c'
    | None => None
    end
  end.

(** A match of [r] that starts at the head of [s]. *)
Definition match_here (r : regex) (s : jsstring) : option mstate :=
  rmatch r s None (λ s' c, Some (s', c)).

(** The result of [RegExp.prototype.exec]: the text before the match, the
    match, capture group 1, the text after the match. *)
Record rmatch_result : Type := MatchResult {
  m_before : jsstring;
  m_text : jsstring;
  m_group1 : option jsstring;
  m_after : jsstring
}.

(** The leftmost match of [r] in [s], [before] being already skipped. *)
Fixpoint search_from (r : regex) (before s : jsstring) : option rmatch_result :=
  match match_here r s with
  | Some (rest, c) =>
    Some (MatchResult before (take (length s - length rest) s) c rest)
  | None =>
    match s with
    | [] => None
    | x :: s' => search_from r (before ++ [x]) s'
    end
  end.

Definition search (r : regex) (s : jsstring) : option rmatch_result :=
  search_from r [] s.

(** [r.test(s)] *)
Definition regex_test (r : regex) (s : jsstring) : bool :=
  match search r s with Some _ => true | None => false end.

(** [s.replace(r, ...)] for a global [r] first collects the matches, left to
    right, each search starting where the previous match ended (one code
    unit further after an empty match); this cuts [s] into the text between
    the matches and the matches. *)
Inductive piece : Type :=
| Lit (text : jsstring)
| Hit (text : jsstring) (p1 : option jsstring).

Fixpoint split_loop (fuel : nat) (r : regex) (s : jsstring) : list piece :=
  match fuel with
  | O => [Lit s]
  | S fuel' =>
    match search r s with
    | None => [Lit s]
    | Some m =>
      Lit (m_before m) :: Hit (m_text m) (m_group1 m) ::
      match m_text m, m_after m with
      | [], [] => []
      | [], x :: rest => Lit [x] :: split_loop fuel' r rest
      | _ :: _, rest => split_loop fuel' r rest
      end
    end
  end.

(** Every round consumes a code unit, so [S (length s)] rounds are enough. *)
Definition split_matches (r : regex) (s : jsstring) : list piece :=
  split_loop (S (length s)) r s.

(** [s.replace(r, f)] with a callback [f (match, p1)], which may throw. *)
Definition replaceAll (r : regex)
    (f : jsstring → option jsstring → result jsstring) (s : jsstring)
    : result jsstring :=
  parts ← mapM (λ p, match p with
                     | Lit t => Ok t
                     | Hit m p1 => f m p1
                     end) (split_matches r s);
  Ok (concat parts).

(** [s.replace(r, rep)] with a replacement string free of [$] patterns. *)
Definition replaceAll_string (r : regex) (rep s : jsstring) : jsstring :=
  concat ((λ p, match p with
                | Lit t => t
                | Hit _ _ => rep
                end) <$> split_matches r s).

(** ** YouTube links *)

Definition isAlnumDashUnderscore (c : N) : bool :=
  ((97 <=? c) && (c <=? 122)) || ((65 <=? c) && (c <=? 90))
  || ((48 <=? c) && (c <=? 57)) || (c =? 95) || (c =? 45).

(** [[^\/\n\s]] *)
Definition notSlashNlSpace (c : N) : bool :=
  negb ((c =? 47) || (c =? 10) || isWhiteSpace c).

(** [/(?:https?:\/\/)?(?:www\.)?(?:youtube\.com\/(?:[^\/\n\s]+\/\S+\/|(?:v|e(?:mbed)?)\/|.*[?&]v=)|youtu\.be\/)([a-zA-Z0-9_-]{11})/] *)
Definition youtubeRegex : regex :=
  RSeq (ROpt (RSeq (RStr (js "http"))
               (RSeq (ROpt (RLit 115)) (RStr (js "://")))))
  (RSeq (ROpt (RStr (js "www.")))
  (RSeq (RAlt
           (RSeq (RStr (js "youtube.com/"))
                 (RAlt (RSeq (RPlus true (RChar notSlashNlSpace))
                        (RSeq (RLit 47)
                        (RSeq (RPlus true RNonSpace) (RLit 47))))
                 (RAlt (RSeq (RAlt (RLit 118)
                                   (RSeq (RLit 101) (ROpt (RStr (js "mbed")))))
                             (RLit 47))
                       (RSeq (RStar true RDot)
                       (RSeq (RChar (λ c, (c =? 63) || (c =? 38)))
                             (RStr (js "v=")))))))
           (RStr (js "youtu.be/")))
        (RGroup (RRep 11 (RChar isAlnumDashUnderscore))))).

Definition isYoutubeVideo (url : jsstring) : bool :=
  regex_test youtubeRegex url.

(** A template literal: the concatenation of its pieces. *)
Definition tpl (pieces : list jsstring) : jsstring := concat pieces.

(** [attr="value"] inside a template. *)
Definition quoted (v : jsstring) : jsstring := dq ++ v ++ dq.

(** [a || b] on strings, [a] being [string | null]. *)
Definition or_else (a : option jsstring) (b : jsstring) : jsstring :=
  match a with
  | Some s => if truthy s then s else b
  | None => b
  end.

(** [a ?? b] *)
Definition nullish_else {A} (a : option A) (b : A) : A :=
  match a with
  | Some x => x
  | None => b
  end.

Definition youtubeLinkToIframe (youtubeUrl : jsstring) (lite : bool)
    (title : option jsstring) : option jsstring :=
  match search youtubeRegex youtubeUrl with
  | Some m =>
    let videoId := nullish_else (m_group1 m) (js "undefined") in
    let actualTitle := nullish_else title (js "Youtube Player") in
    if lite then
      Some (tpl [
        js "<lite-youtube class="; quoted (js "youtube-embed");
        js " videoid="; quoted videoId;
        js " title="; quoted actualTitle;
        js " style=";
        quoted (js "background-image: url('https://i.ytimg.com/vi/" ++ videoId
                ++ js "/hqdefault.jpg');");
        js ">"; nl;
        js "        <a href=";
        quoted (js "https://youtube.com/watch?v=" ++ videoId);
        js " class="; quoted (js "lty-playbtn");
        js " title="; quoted actualTitle; js ">"; nl;
        js "          <span class="; quoted (js "lyt-visually-hidden"); js ">";
        actualTitle; js "</span>"; nl;
        js "        </a>"; nl;
        js "      </lite-youtube>" ])
    else
      Some (tpl [
        js "<iframe width="; quoted (js "560");
        js " height="; quoted (js "315");
        js " src=";
        quoted (js "https://www.youtube-nocookie.com/embed/" ++ videoId);
        js " class="; quoted (js "youtube-embed");
        js " title="; quoted actualTitle;
        js " frameborder="; quoted (js "0");
        js " allow=";
        quoted (js "accelerometer; autoplay; clipboard-write; encrypted-media; gyroscope; picture-in-picture; web-share");
        js " referrerpolicy="; quoted (js "strict-origin-when-cross-origin");
        js " loading="; quoted (js "lazy");
        js " allowfullscreen></iframe>"; nl ])
  | None => None
  end.

Definition isLocalPath (src : jsstring) : bool :=
  negb (startsWith src (js "http://")) && negb (startsWith src (js "https://")).

(** ** Alerts *)

Definition cutStr (str : jsstring) (i j : Z) : jsstring :=
  trim (substring str 0 i ++ substring_from str j).

Definition alerts : list jsstring :=
  [ js "[!note]"; js "[!tip]"; js "[!important]"; js "[!warning]";
    js "[!caution]" ].

Section CaseMapping.
  (** [String.prototype.toLowerCase] and [toUpperCase] of the runtime. *)
Variable toLowerCase : jsstring → jsstring.
Variable toUpperCase : jsstring → jsstring.

  (** [alerts.forEach] assigns [result] at every alert the text includes, so
      the last assignment stays. *)
Definition detectAlert (text : jsstring) : option jsstring :=
    foldl (λ result alert,
             if includes (toLowerCase text) alert then Some alert else result)
          None alerts.

Definition convertAlert (alert : jsstring) : jsstring :=
    let alertText := slice alert 2 (Z.of_nat (length alert) - 1) in
    match alertText with
    | c :: _ => toUpperCase [c] ++ toLowerCase (slice_from alertText 1)
    | [] => js "undefined" ++ toLowerCase (slice_from alertText 1)
    end.
End CaseMapping.

(** ** The renderer *)

Definition SPACE : N := 32.
Definition COMMA : N := 44.

(** [s.split(sep)] for a separator of one code unit. *)
Fixpoint split (sep : N) (s : jsstring) : list jsstring :=
  match s with
  | [] => [[]]
  | c :: s' =>
    if c =? sep then [] :: split sep s'
    else match split sep s' with
         | p :: ps => (c :: p) :: ps
         | [] => [[c]]
         end
  end.

(** [/\stitle="(.+)"/] *)
Definition TITLE_REGEXP : regex :=
  RSeq RSpace
  (RSeq (RStr (js "title="))
  (RSeq (RLit 34)
  (RSeq (RGroup (RPlus true RDot)) (RLit 34)))).

Inductive YoutubeHandling : Type := lite | link | embed.

Definition YoutubeHandling_eqb (a b : YoutubeHandling) : bool :=
  match a, b with
  | lite, lite | link, link | embed, embed => true
  | _, _ => false
  end.

Module Renderer.

  (** The fields of a [Renderer] instance. [slugger] holds the headings the
      slugger has seen, when there is one. *)
Record t : Type := Make {
    allowMath : bool;
    noLinks : bool;
    ytEmbed : YoutubeHandling;
    baseUrl : option jsstring;
    slugger : option (list jsstring);
    mermaidImport : bool;
    lightYTEmbedImport : bool;
    mermaidEnabled : bool;
    alertsEnabled : bool;
    svgCheckboxes : bool
  }.

Definition set_lightYTEmbedImport (this : t) (b : bool) : t :=
    Make (allowMath this) (noLinks this) (ytEmbed this) (baseUrl this)
         (slugger this) (mermaidImport this) b (mermaidEnabled this)
         (alertsEnabled this) (svgCheckboxes this).

Definition set_mermaidImport (this : t) (b : bool) : t :=
    Make (allowMath this) (noLinks this) (ytEmbed this) (baseUrl this)
         (slugger this) b (lightYTEmbedImport this) (mermaidEnabled this)
         (alertsEnabled this) (svgCheckboxes this).

Definition set_slugger (this : t) (seen : option (list jsstring)) : t :=
    Make (allowMath this) (noLinks this) (ytEmbed this) (baseUrl this)
         seen (mermaidImport this) (lightYTEmbedImport this)
         (mermaidEnabled this) (alertsEnabled this) (svgCheckboxes this).

(** The spaces at the head of a line of a template. *)
Definition indent (n : nat) : jsstring := replicate n SPACE.

Section Methods.
Variable toLowerCase : jsstring → jsstring.
Variable toUpperCase : jsstring → jsstring.
    (** [contentType(path.extname(src))] of [@std/media-types] and
        [@std/path]; [None] is [undefined]. *)
Variable contentType_extname : jsstring → option jsstring.
    (** [new URL(href, base).href], which throws on an invalid URL. *)
Variable URL_href : jsstring → jsstring → result jsstring.
    (** [Marked.Renderer.prototype.blockquote] *)
Variable super_blockquote : jsstring → jsstring.

    (** [image] returns the markup and the instance as it leaves it. *)
Definition image (this : t) (src : jsstring) (title : option jsstring)
        (alt : jsstring) : jsstring * t :=
      let youtube := isYoutubeVideo src in
      if youtube && YoutubeHandling_eqb (ytEmbed this) link then
        (tpl [ js "<a href="; quoted src; js ">";
               or_else (Some (or_else title alt)) (js "Youtube video");
               js "</a>" ], this)
      else
        let media :=
          if isLocalPath src
             && includes (or_else (contentType_extname src) []) (js "video")
          then tpl [ js "<video src="; quoted src; js " alt="; quoted alt;
                     js " title="; quoted (nullish_else title []);
                     js " controls />" ]
          else tpl [ js "<img src="; quoted src; js " alt="; quoted alt;
                     js " title="; quoted (nullish_else title []);
                     js " />" ] in
        if youtube then
          match youtubeLinkToIframe src
                  (YoutubeHandling_eqb (ytEmbed this) lite)
                  (Some (or_else title alt)) with
          | Some youtubeIframe =>
            if truthy youtubeIframe then
              (youtubeIframe,
               set_lightYTEmbedImport this
                 (YoutubeHandling_eqb (ytEmbed this) lite))
            else (media, this)
          | None => (media, this)
          end
        else (media, this).

Definition link (this : t) (href : jsstring) (title : option jsstring)
        (text : jsstring) : result jsstring :=
      if noLinks this then Ok text
      else
        let titleAttr :=
          match title with
          | Some ti => if truthy ti then js " title=" ++ quoted ti else []
          | None => []
          end in
        if startsWith href (js "#") then
          Ok (tpl [ js "<a href="; quoted href; titleAttr; js ">"; text;
                    js "</a>" ])
        else
          href' ←
            match baseUrl this with
            | Some base =>
              if truthy base
              then try_catch (URL_href href base) (λ _, Ok href)
              else Ok href
            | None => Ok href
            end;
          Ok (tpl [ js "<a href="; quoted href'; titleAttr;
                    js " rel="; quoted (js "noopener noreferrer"); js ">";
                    text; js "</a>" ]).

Definition blockquote (this : t) (text : jsstring) : jsstring :=
      match detectAlert toLowerCase text with
      | Some alertType =>
        if negb (alertsEnabled this) && truthy alertType then
          let i := indexOf (toLowerCase text) alertType in
          tpl [ js "<p><b>"; convertAlert toLowerCase toUpperCase alertType;
                js ": </b></p>";
                cutStr text i (i + Z.of_nat (length alertType));
                js "</p>" ]
        else super_blockquote text
      | None => super_blockquote text
      end.
End Methods.

Section StatefulRules.
    (** [String.prototype.toLocaleLowerCase] of the runtime. *)
Variable toLocaleLowerCase : jsstring → jsstring.
    (** [katex.renderToString(code, { displayMode })], which throws on a
        malformed expression. *)
Variable katex_renderToString : jsstring → bool → result jsstring.
    (** The grammars of Prism: [Prism.languages[language]] when
        [Prism.languages] has the own property [language]. *)
Variable Grammar : Type.
Variable Prism_languages : jsstring → option Grammar.
    (** [Prism.highlight(code, grammar, language)] *)
Variable Prism_highlight : jsstring → Grammar → option jsstring → jsstring.
    (** [he.encode] *)
Variable he_encode : jsstring → jsstring.
    (** [minify] of [mod.ts], taken here as any function on strings. *)
Variable minify : jsstring → jsstring.
    (** [slugger.slug(raw)] of [github-slugger]: the slug that a slugger
        which has slugged the values [seen], in this order, gives to
        [raw]. *)
Variable GitHubSlugger_slug : list jsstring → jsstring → jsstring.

    (** [heading]: [level] is one of 1 to 6, a single digit in the markup.
        The slugger remembers the value it has slugged. *)
Definition heading (this : t) (text : jsstring) (level : N) (raw : jsstring)
        : jsstring * t :=
      let level := [48 + level] in
      match noLinks this, slugger this with
      | false, Some seen =>
        let slug := GitHubSlugger_slug seen raw in
        (tpl [ js "<h"; level; js " id="; quoted slug;
               js "><a class="; quoted (js "anchor");
               js " aria-hidden="; quoted (js "true");
               js " tabindex="; quoted (js "-1");
               js " href="; quoted (js "#" ++ slug);
               js "><svg class="; quoted (js "octicon octicon-link");
               js " viewBox="; quoted (js "0 0 16 16");
               js " width="; quoted (js "16");
               js " height="; quoted (js "16");
               js " aria-hidden="; quoted (js "true");
               js "><path fill-rule="; quoted (js "evenodd");
               js " d=";
               quoted
                 (js "M7.775 3.275a.75.75 0 001.06 1.06l1.25-1.25a2 2 0 112.83"
                  ++ js " 2.83l-2.5 2.5a2 2 0 01-2.83 0 .75.75 0 00-1.06 1.06 3.5"
                  ++ js " 3.5 0 004.95 0l2.5-2.5a3.5 3.5 0 00-4.95-4.95l-1.25 1.2"
                  ++ js "5zm-4.69 9.64a2 2 0 010-2.83l2.5-2.5a2 2 0 012.83 0 .75."
                  ++ js "75 0 001.06-1.06 3.5 3.5 0 00-4.95 0l-2.5 2.5a3.5 3.5 0 "
                  ++ js "004.95 4.95l1.25-1.25a.75.75 0 00-1.06-1.06l-1.25 1.25a2"
                  ++ js " 2 0 01-2.83 0z");
               js "></path></svg></a>"; text; js "</h"; level; js ">"; nl ],
         set_slugger this (Some (seen ++ [raw])))
      | _, _ =>
        (tpl [ js "<h"; level; js ">"; text; js "</h"; level; js ">"; nl ],
         this)
      end.

    (** The language and the title that [code] reads off the info string of
        the fence. Calling [toLocaleLowerCase] on the first piece throws if
        there is none. *)
Definition code_language (language : option jsstring)
        : result (option jsstring * option jsstring) :=
      let isTitleIncluded :=
        match language with
        | Some l => search TITLE_REGEXP l
        | None => None
        end in
      let '(language, title) :=
        match isTitleIncluded, language with
        | Some m, Some l => (head (split SPACE l), m_group1 m)
        | _, _ => (language, None)
        end in
      language ←
        match language with
        | Some l =>
          match head (split COMMA l) with
          | Some p => Ok (Some (toLocaleLowerCase p))
          | None => Throw TypeError
          end
        | None => Ok None
        end;
      Ok (language, title).

    (** [code] returns the markup and the instance as it leaves it, or
        throws, which it does before it assigns anything. *)
Definition code (this : t) (code : jsstring) (language : option jsstring)
        : result (jsstring * t) :=
      '(language, title) ← code_language language;
      let isMermaid :=
        mermaidEnabled this
        && bool_decide (language = Some (js "mermaid")) in
      if bool_decide (language = Some (js "math")) && allowMath this
      then
        html ← katex_renderToString code true;
        Ok (html, this)
      else
        let this := if isMermaid then set_mermaidImport this true else this in
        let grammar :=
          match language with
          | Some l => if truthy l then Prism_languages l else None
          | None => None
          end in
        match grammar with
        | None =>
          if isMermaid then
            Ok (minify
                  (tpl [ js "<div class="; quoted (js "mermaid-container");
                         js ">"; nl;
                         indent 12; js "<pre><code class=";
                         quoted (js "notranslate"); js ">"; code;
                         js "</code></pre>"; nl;
                         indent 12; js "<div class=";
                         quoted (js "mermaid-code");
                         js ">"; code; js "</div>"; nl;
                         indent 10; js "</div>" ]), this)
          else
            Ok (tpl [ js "<pre><code class="; quoted (js "notranslate");
                      js ">"; he_encode code; js "</code></pre>" ], this)
        | Some grammar =>
          let html := Prism_highlight code grammar language in
          let language := nullish_else language (js "undefined") in
          let titleHtml :=
            match title with
            | Some t =>
              if truthy t
              then tpl [ js "<div class="; quoted (js "markdown-code-title");
                         js ">"; t; js "</div>" ]
              else []
            | None => []
            end in
          let highlighted :=
            tpl [ js "<div class="; dq; js "highlight highlight-source-";
                  language; js " notranslate"; dq; js ">"; titleHtml;
                  js "<pre>"; html; js "</pre></div>" ] in
          if isMermaid then
            Ok (minify
                  (tpl [ nl;
                         indent 8; js "<div class=";
                         quoted (js "mermaid-container"); js ">"; nl;
                         indent 10; highlighted; nl;
                         indent 10; js "<div class=";
                         quoted (js "mermaid-code");
                         js ">"; code; js "</div>"; nl;
                         indent 8; js "</div>" ]), this)
          else Ok (highlighted, this)
        end.
End StatefulRules.

End Renderer.

(** ** The math preprocessor *)

(** [/\$\$\s(.+?)\s\$\$/g] *)
Definition BLOCK_MATH_REGEXP : regex :=
  RSeq (RStr (js "$$"))
  (RSeq RSpace
  (RSeq (RGroup (RPlus false RDot))
  (RSeq RSpace (RStr (js "$$"))))).

(** [/\s\$((?=\S).*?(?=\S))\$/g] *)
Definition INLINE_MATH_REGEXP : regex :=
  RSeq RSpace
  (RSeq (RLit 36)
  (RSeq (RGroup (RSeq (RLook RNonSpace)
                (RSeq (RStar false RDot) (RLook RNonSpace))))
        (RLit 36))).

Section Mathify.
  (** [katex.renderToString(tex, { displayMode })], which throws on a
      malformed expression. *)
Variable katex_renderToString : jsstring → bool → result jsstring.

  (** The two replacement callbacks. Capture group 1 takes part in every
      match of either expression; were it [undefined], the body of the [try]
      would throw. The [console.warn] of the handlers has no effect on the
      value. *)
Definition mathify_block (match_ : jsstring) (p1 : option jsstring)
      : result jsstring :=
    try_catch
      (match p1 with
       | Some p => katex_renderToString (trim p) true
       | None => Throw TypeError
       end)
      (λ _, Ok match_).

Definition mathify_inline (match_ : jsstring) (p1 : option jsstring)
      : result jsstring :=
    try_catch
      (match p1 with
       | Some p => k ← katex_renderToString p false; Ok (js " " ++ k)
       | None => Throw TypeError
       end)
      (λ _, Ok match_).

Definition mathify (markdown : jsstring) : result jsstring :=
    markdown ← replaceAll BLOCK_MATH_REGEXP mathify_block markdown;
    replaceAll INLINE_MATH_REGEXP mathify_inline markdown.
End Mathify.

(** ** Options and the sanitizer configuration *)

(** [sanitizeHtml.AllowedAttribute]: a name, or a name with the values it
    may take. *)
Inductive AllowedAttribute : Type :=
| AttrName (name : jsstring)
| AttrValues (name : jsstring) (values : list jsstring).

(** An entry of [allowedClasses]: [boolean | Array<string | RegExp>]. *)
Inductive ClassPattern : Type :=
| ClassName (name : jsstring)
| ClassRegExp (source : jsstring).

Inductive AllowedClasses : Type :=
| ClassesBool (b : bool)
| ClassesList (l : list ClassPattern).

Module RenderOptions.

Record t : Type := Make {
  baseUrl : option jsstring;
  mediaBaseUrl : option jsstring;
  inline : option bool;
  allowIframes : option bool;
  allowMath : option bool;
  disableHtmlSanitization : option bool;
  renderer : option Renderer.t;
  allowedClasses : option (gmap jsstring AllowedClasses);
  allowedTags : option (list jsstring);
  allowedAttributes : option (gmap jsstring (list AllowedAttribute));
  breaks : option bool;
  noLinks : option bool;
  youtubeHandling : option YoutubeHandling;
  githubSlugger : option bool;
  mermaid : option bool;
  alerts : option bool;
  svgCheckboxes : option bool
}.

End RenderOptions.

(** [opts.mediaBaseUrl = v] *)
Definition set_mediaBaseUrl (opts : RenderOptions.t) (v : option jsstring)
    : RenderOptions.t :=
  RenderOptions.Make (RenderOptions.baseUrl opts) v (RenderOptions.inline opts) (RenderOptions.allowIframes opts)
    (RenderOptions.allowMath opts) (RenderOptions.disableHtmlSanitization opts) (RenderOptions.renderer opts)
    (RenderOptions.allowedClasses opts) (RenderOptions.allowedTags opts) (RenderOptions.allowedAttributes opts)
    (RenderOptions.breaks opts) (RenderOptions.noLinks opts) (RenderOptions.youtubeHandling opts) (RenderOptions.githubSlugger opts)
    (RenderOptions.mermaid opts) (RenderOptions.alerts opts) (RenderOptions.svgCheckboxes opts).

(** [opts.renderer] is a reference: the options hold the instance, and what
    rendering does to the instance shows in the options. [set_renderer]
    gives the options with the instance in the state [v]. *)
Definition set_renderer (opts : RenderOptions.t) (v : option Renderer.t)
    : RenderOptions.t :=
  RenderOptions.Make (RenderOptions.baseUrl opts)
    (RenderOptions.mediaBaseUrl opts) (RenderOptions.inline opts)
    (RenderOptions.allowIframes opts) (RenderOptions.allowMath opts)
    (RenderOptions.disableHtmlSanitization opts) v
    (RenderOptions.allowedClasses opts) (RenderOptions.allowedTags opts)
    (RenderOptions.allowedAttributes opts) (RenderOptions.breaks opts)
    (RenderOptions.noLinks opts) (RenderOptions.youtubeHandling opts)
    (RenderOptions.githubSlugger opts) (RenderOptions.mermaid opts)
    (RenderOptions.alerts opts) (RenderOptions.svgCheckboxes opts).

(** [opts.allowedClasses = v] *)
Definition set_allowedClasses (opts : RenderOptions.t)
    (v : option (gmap jsstring AllowedClasses)) : RenderOptions.t :=
  RenderOptions.Make (RenderOptions.baseUrl opts)
    (RenderOptions.mediaBaseUrl opts) (RenderOptions.inline opts)
    (RenderOptions.allowIframes opts) (RenderOptions.allowMath opts)
    (RenderOptions.disableHtmlSanitization opts) (RenderOptions.renderer opts)
    v (RenderOptions.allowedTags opts) (RenderOptions.allowedAttributes opts)
    (RenderOptions.breaks opts) (RenderOptions.noLinks opts)
    (RenderOptions.youtubeHandling opts) (RenderOptions.githubSlugger opts)
    (RenderOptions.mermaid opts) (RenderOptions.alerts opts)
    (RenderOptions.svgCheckboxes opts).

(** The options with every field absent: [{}]. *)
Definition no_options : RenderOptions.t :=
  RenderOptions.Make None None None None None None None None None None None None None
    None None None None.

(** Truthiness of an optional flag. *)
Definition flag (b : option bool) : bool := nullish_else b false.

(** [new Renderer(options)] *)
Definition new_Renderer (options : RenderOptions.t) : Renderer.t :=
  Renderer.Make
    (nullish_else (RenderOptions.allowMath options) false)
    (nullish_else (RenderOptions.noLinks options) false)
    (nullish_else (RenderOptions.youtubeHandling options) lite)
    (RenderOptions.baseUrl options)
    (match RenderOptions.githubSlugger options with
     | Some true | None => Some []
     | Some false => None
     end)
    false
    false
    (nullish_else (RenderOptions.mermaid options) false)
    (nullish_else (RenderOptions.alerts options) true)
    (nullish_else (RenderOptions.svgCheckboxes options) true).

Record MarkedOptions : Type := MakeMarkedOptions {
  marked_baseUrl : option jsstring;
  marked_breaks : bool;
  marked_gfm : bool;
  marked_mangle : bool;
  marked_renderer : Renderer.t;
  marked_async : bool
}.

Definition getOpts (opts : RenderOptions.t) : MarkedOptions :=
  MakeMarkedOptions (RenderOptions.baseUrl opts) (nullish_else (RenderOptions.breaks opts) false) true
    false
    (match RenderOptions.renderer opts with
     | Some r => r
     | None => new_Renderer opts
     end)
    false.

(** The options object handed to [sanitizeHtml]; a field that a call site
    leaves out is [None]. A tag transform may throw. *)
Record SanitizeOptions : Type := MakeSanitizeOptions {
  transformTags :
    gmap jsstring
      (jsstring → gmap jsstring jsstring
       → result (jsstring * gmap jsstring jsstring));
  sanitize_allowedTags : list jsstring;
  sanitize_allowedAttributes : gmap jsstring (list AllowedAttribute);
  sanitize_allowedClasses : option (gmap jsstring AllowedClasses);
  allowProtocolRelative : option bool;
  lowerCaseAttributeNames : option bool
}.

(** [for (const tag in customs) merged[tag] = [...(merged[tag] || []), ...customs[tag]]] *)
Definition mergeAttributes
    (defaults customs : gmap jsstring (list AllowedAttribute))
    : gmap jsstring (list AllowedAttribute) :=
  map_fold (λ tag attrs merged,
              <[tag := nullish_else (merged !! tag) [] ++ attrs]> merged)
           defaults customs.

(** ** The parser at work on the renderer

    The parser changes the renderer instance only by calling its rules. A
    run of the parser is the rules it calls that assign to the instance
    ([heading], [image], [code]), each with its arguments and with what the
    parser does with the markup that the rule returns, down to the markup of
    the document. The rules that only read the instance ([link], [listitem],
    [checkbox], [blockquote] and the inherited ones) are part of the
    parser's own work here: it has the instance in its options. *)
Inductive Rendering : Type :=
| Rendered (html : jsstring)
| CallHeading (text : jsstring) (level : N) (raw : jsstring)
    (k : jsstring → Rendering)
| CallImage (src : jsstring) (title : option jsstring) (alt : jsstring)
    (k : jsstring → Rendering)
| CallCode (code : jsstring) (language : option jsstring)
    (k : jsstring → Rendering).

Section Run.
Variable toLocaleLowerCase : jsstring → jsstring.
Variable katex_renderToString : jsstring → bool → result jsstring.
Variable Grammar : Type.
Variable Prism_languages : jsstring → option Grammar.
Variable Prism_highlight : jsstring → Grammar → option jsstring → jsstring.
Variable he_encode : jsstring → jsstring.
Variable minify : jsstring → jsstring.
Variable GitHubSlugger_slug : list jsstring → jsstring → jsstring.
Variable contentType_extname : jsstring → option jsstring.

  (** The markup of the document, or the exception that a rule throws, and
      the instance as the run leaves it. The only rule that throws is
      [code], and it throws before it assigns. *)
Fixpoint run (p : Rendering) (this : Renderer.t)
      : result jsstring * Renderer.t :=
    match p with
    | Rendered html => (Ok html, this)
    | CallHeading text level raw k =>
      let '(out, this) :=
        Renderer.heading GitHubSlugger_slug this text level raw in
      run (k out) this
    | CallImage src title alt k =>
      let '(out, this) :=
        Renderer.image contentType_extname this src title alt in
      run (k out) this
    | CallCode code language k =>
      match Renderer.code toLocaleLowerCase katex_renderToString Grammar
              Prism_languages Prism_highlight he_encode minify this code
              language with
      | Ok (out, this) => run (k out) this
      | Throw e => (Throw e, this)
      end
    end.
End Run.

Section Render.
Variable emojify : jsstring → jsstring.
Variable katex_renderToString : jsstring → bool → result jsstring.
Variable URL_href : jsstring → jsstring → result jsstring.
Variable toLocaleLowerCase : jsstring → jsstring.
Variable Grammar : Type.
Variable Prism_languages : jsstring → option Grammar.
Variable Prism_highlight : jsstring → Grammar → option jsstring → jsstring.
Variable he_encode : jsstring → jsstring.
Variable minify : jsstring → jsstring.
Variable GitHubSlugger_slug : list jsstring → jsstring → jsstring.
Variable contentType_extname : jsstring → option jsstring.
  (** [markedInstance.parse] ([inline = false]) or [parseInline], with or
      without the alert extension, on the text and the options: what the
      parser does with the renderer. *)
Variable marked_parse : bool → bool → jsstring → MarkedOptions → Rendering.
Variable sanitizeHtml : jsstring → SanitizeOptions → jsstring.
  (** [sanitizeHtml.defaults] *)
Variable sanitize_defaults_allowedTags : list jsstring.
Variable sanitize_defaults_allowedAttributes :
    gmap jsstring (list AllowedAttribute).
  (** [KATEX_CLASSES] of [style.ts] *)
Variable KATEX_CLASSES : list jsstring.
  (** [minify] applied to the mermaid bootstrap fragment. *)
Variable minified_mermaid_bootstrap : jsstring.

Definition defaultAllowedTags (opts : RenderOptions.t) : list jsstring :=
    let tags :=
      sanitize_defaults_allowedTags ++
      [ js "img"; js "video"; js "svg"; js "path"; js "circle"; js "figure";
        js "figcaption"; js "del"; js "details"; js "summary"; js "input" ] in
    let tags := if flag (RenderOptions.allowIframes opts) then tags ++ [js "iframe"] else tags in
    if flag (RenderOptions.allowMath opts) then
      tags ++
      [ js "math"; js "maction"; js "annotation"; js "annotation-xml";
        js "menclose"; js "merror"; js "mfenced"; js "mfrac"; js "mi";
        js "mmultiscripts"; js "mn"; js "mo"; js "mover"; js "mpadded";
        js "mphantom"; js "mprescripts"; js "mroot"; js "mrow"; js "ms";
        js "semantics"; js "mspace"; js "msqrt"; js "mstyle"; js "msub";
        js "msup"; js "msubsup"; js "mtable"; js "mtd"; js "mtext";
        js "mtr" ]
    else tags.

Definition transformMedia (opts : RenderOptions.t) (tagName : jsstring)
      (attribs : gmap jsstring jsstring)
      : result (jsstring * gmap jsstring jsstring) :=
    attribs ←
      match RenderOptions.mediaBaseUrl opts, attribs !! js "src" with
      | Some base, Some src =>
        if truthy base && truthy src then
          try_catch
            (href ← URL_href src base; Ok (<[js "src" := href]> attribs))
            (λ _, Ok (delete (js "src") attribs))
        else Ok attribs
      | _, _ => Ok attribs
      end;
    Ok (tagName, attribs).

Definition names (l : list string) : list AllowedAttribute :=
    (λ s, AttrName (js s)) <$> l.

Definition classes (l : list string) : AllowedClasses :=
    ClassesList ((λ s, ClassName (js s)) <$> l).

Definition defaultAllowedClasses (opts : RenderOptions.t)
      : gmap jsstring AllowedClasses :=
    list_to_map [
      (js "div", classes [ "highlight"; "highlight-source-*"; "notranslate";
                           "markdown-alert"; "markdown-alert-*";
                           "markdown-code-title"; "mermaid-code";
                           "mermaid-container" ]);
      (js "span",
       ClassesList
         (((λ s, ClassName (js s)) <$>
           [ "token"; "keyword"; "operator"; "number"; "boolean"; "function";
             "string"; "comment"; "class-name"; "regex"; "regex-delimiter";
             "tag"; "attr-name"; "punctuation"; "script-punctuation";
             "script"; "plain-text"; "property"; "prefix"; "line"; "deleted";
             "inserted"; "key"; "atrule" ])
          ++ (if flag (RenderOptions.allowMath opts) then ClassName <$> KATEX_CLASSES
              else [])));
      (js "a", classes [ "anchor" ]);
      (js "p", classes [ "markdown-alert-title" ]);
      (js "svg", classes [ "octicon"; "octicon-alert"; "octicon-link" ]);
      (js "h2", classes [ "sr-only" ]);
      (js "section", classes [ "footnotes" ]) ].

Definition defaultAllowedAttributes (opts : RenderOptions.t)
      : gmap jsstring (list AllowedAttribute) :=
    list_to_map [
      (js "img", names [ "src"; "alt"; "height"; "width"; "align"; "title" ]);
      (js "video", names [ "src"; "alt"; "height"; "width"; "autoplay";
                           "muted"; "loop"; "playsinline"; "poster";
                           "controls"; "title" ]);
      (js "a", names [ "id"; "aria-hidden"; "href"; "tabindex"; "rel";
                       "target"; "title"; "data-footnote-ref";
                       "data-footnote-backref"; "aria-label";
                       "aria-describedby" ]);
      (js "svg", names [ "viewBox"; "width"; "height"; "aria-hidden";
                         "background" ]);
      (js "path", names [ "fill-rule"; "d" ]);
      (js "circle", names [ "cx"; "cy"; "r"; "stroke"; "stroke-width";
                            "fill"; "alpha" ]);
      (js "span", if flag (RenderOptions.allowMath opts)
                  then names [ "aria-hidden"; "style" ] else []);
      (js "h1", names [ "id" ]);
      (js "h2", names [ "id" ]);
      (js "h3", names [ "id" ]);
      (js "h4", names [ "id" ]);
      (js "h5", names [ "id" ]);
      (js "h6", names [ "id" ]);
      (js "li", names [ "id" ]);
      (js "td", names [ "colspan"; "rowspan"; "align"; "width" ]);
      (js "iframe", names [ "src"; "width"; "height" ]);
      (js "math", names [ "xmlns" ]);
      (js "annotation", names [ "encoding" ]);
      (js "details", names [ "open" ]);
      (js "section", names [ "data-footnotes" ]);
      (js "input", [ AttrName (js "checked"); AttrName (js "disabled");
                     AttrValues (js "type") [ js "checkbox" ] ]) ]
    ∪ sanitize_defaults_allowedAttributes.

  (** The second argument of the [sanitizeHtml] call of [render]. *)
Definition sanitizeOptions (opts : RenderOptions.t) : SanitizeOptions :=
    MakeSanitizeOptions
      (list_to_map [ (js "img", transformMedia opts);
                     (js "video", transformMedia opts) ])
      (defaultAllowedTags opts ++ nullish_else (RenderOptions.allowedTags opts) [])
      (mergeAttributes (defaultAllowedAttributes opts)
                       (nullish_else (RenderOptions.allowedAttributes opts) ∅))
      (Some (nullish_else (RenderOptions.allowedClasses opts) ∅ ∪ defaultAllowedClasses opts))
      (Some false)
      (Some false).

  (** What follows [opts.mediaBaseUrl ??= opts.baseUrl] in [render]: the
      value or the exception, and the renderer instance, the caller's own
      when [opts.renderer] is set, as the call leaves it. *)
Definition render_body (markdown : jsstring) (opts : RenderOptions.t)
      : result jsstring * Renderer.t :=
    let markdown := emojify markdown in
    let marked_opts := getOpts opts in
    match
      (if flag (RenderOptions.allowMath opts)
       then mathify katex_renderToString markdown
       else Ok markdown)
    with
    | Throw e => (Throw e, marked_renderer marked_opts)
    | Ok markdown =>
      let withAlerts :=
        match RenderOptions.alerts opts with
        | Some false => false
        | _ => true
        end in
      let '(html, renderer) :=
        run toLocaleLowerCase katex_renderToString Grammar Prism_languages
          Prism_highlight he_encode minify GitHubSlugger_slug
          contentType_extname
          (marked_parse (flag (RenderOptions.inline opts)) withAlerts markdown
             marked_opts)
          (marked_renderer marked_opts) in
      (html ← html;
       let additionalCode :=
         if Renderer.mermaidImport renderer then minified_mermaid_bootstrap
         else [] in
       let additionalCode :=
         if Renderer.lightYTEmbedImport renderer then
           additionalCode
           ++ tpl [ js "<script defer src=";
                    quoted (js "https://cdn.jsdelivr.net/npm/lite-youtube-embed@0.3.3/src/lite-yt-embed.js");
                    js "></script>" ]
           ++ tpl [ js "<link rel="; quoted (js "stylesheet"); js " href=";
                    quoted (js "https://cdn.jsdelivr.net/npm/lite-youtube-embed@0.3.3/src/lite-yt-embed.css");
                    js " />" ]
         else additionalCode in
       if flag (RenderOptions.disableHtmlSanitization opts)
       then Ok (additionalCode ++ html)
       else Ok (additionalCode ++ sanitizeHtml html (sanitizeOptions opts)),
       renderer)
    end.

  (** [render] returns its value (or the exception it throws) and the
      caller's options object as the call leaves it: [mediaBaseUrl] as
      assigned, and the instance that [opts.renderer] refers to, when there
      is one, in the state in which rendering leaves it. Without
      [opts.renderer] the instance is made by [getOpts] and the options
      keep no reference to it. *)
Definition render (markdown : jsstring) (opts : RenderOptions.t)
      : result jsstring * RenderOptions.t :=
    let opts :=
      match RenderOptions.mediaBaseUrl opts with
      | Some _ => opts
      | None => set_mediaBaseUrl opts (RenderOptions.baseUrl opts)
      end in
    let '(out, renderer) := render_body markdown opts in
    (out,
     match RenderOptions.renderer opts with
     | Some _ => set_renderer opts (Some renderer)
     | None => opts
     end).
End Render.

(** ** The section stripper *)

(** [Marked.Token], with the properties that [stripTokens] reads. A table
    cell is the list of its tokens. *)
#[warnings="-register-all"]
Inductive Token : Type :=
| T_space (raw : jsstring)
| T_code (lang : option jsstring) (text : jsstring)
| T_heading (depth : nat) (tokens : list Token)
| T_table (header : list (list Token)) (rows : list (list (list Token)))
| T_hr
| T_blockquote (tokens : list Token)
| T_list (items : list Token)
| T_list_item (tokens : list Token)
| T_paragraph (tokens : list Token)
| T_html (text : jsstring)
| T_text (raw : jsstring) (tokens : option (list Token))
| T_def
| T_escape
| T_link (tokens : list Token)
| T_image (title : option jsstring) (text : jsstring)
| T_strong (tokens : list Token)
| T_em (tokens : list Token)
| T_codespan (text : jsstring)
| T_br
| T_del (tokens : list Token).

Module MarkdownSections.
Record t : Type := Make {
    header : jsstring;
    depth : nat;
    content : jsstring
  }.
End MarkdownSections.

(** [/\n{3,}/g] *)
Definition NEWLINES3 : regex := RSeq (RRep 3 (RLit LF)) (RStar true (RLit LF)).

(** [.trim().replace(/\n{3,}/g, "\n")] *)
Definition finalize (s : jsstring) : jsstring :=
  replaceAll_string NEWLINES3 nl (trim s).

(** [sections[index].header = ...; sections[index].content = ...] at a
    heading; reading a property of [sections[index]] throws when the index
    is out of range. *)
Definition finalize_at (sections : list MarkdownSections.t) (index : nat)
    : result (list MarkdownSections.t) :=
  match sections !! index with
  | Some sec =>
    Ok (<[index := MarkdownSections.Make
                     (finalize (MarkdownSections.header sec))
                     (MarkdownSections.depth sec)
                     (finalize (MarkdownSections.content sec))]> sections)
  | None => Throw TypeError
  end.

(** [sections[index][header ? "header" : "content"] += s] *)
Definition append_at (sections : list MarkdownSections.t) (index : nat)
    (header : bool) (s : jsstring) : result (list MarkdownSections.t) :=
  match sections !! index with
  | Some sec =>
    Ok (<[index := if header
                   then MarkdownSections.Make
                          (MarkdownSections.header sec ++ s)
                          (MarkdownSections.depth sec)
                          (MarkdownSections.content sec)
                   else MarkdownSections.Make
                          (MarkdownSections.header sec)
                          (MarkdownSections.depth sec)
                          (MarkdownSections.content sec ++ s)]> sections)
  | None => Throw TypeError
  end.

Section Fold.
Context {A S : Type}.
Variable f : A → S → result S.

  (** [for (const x of l) { ... }] over a state that the body updates. *)
Fixpoint for_of (l : list A) (s : S) : result S :=
    match l with
    | [] => Ok s
    | x :: l' => s' ← f x s; for_of l' s'
    end.
End Fold.

Section Strip.
Variable emojify : jsstring → jsstring.
Variable sanitizeHtml : jsstring → SanitizeOptions → jsstring.
  (** [Marked.marked.lexer] run with a [StripTokenizer]. *)
Variable lexer : jsstring → MarkedOptions → list Token.

  (** The options of the [sanitizeHtml] call of [stripTokens]. *)
Definition plain_text_options : SanitizeOptions :=
    MakeSanitizeOptions ∅ [] ∅ None None None.

  (** [stripTokens(tokens, sections, header)]: a call starts at the last
      section, [index = sections.length - 1]. ([sections] is never empty
      here; on an empty array the first access throws in the source, at
      index -1, as it does here, at index 0.) *)
Definition enter (visit : Token → list MarkdownSections.t * nat
                            → result (list MarkdownSections.t * nat))
      (tokens : list Token) (sections : list MarkdownSections.t)
      : result (list MarkdownSections.t) :=
    '(sections, _) ← for_of visit tokens (sections, (length sections - 1)%nat);
    Ok sections.

  (** One round of the loop of [stripTokens], on the shared [sections] and
      the [index] of the running call. *)
Fixpoint stripToken (header : bool) (token : Token)
      (st : list MarkdownSections.t * nat) {struct token}
      : result (list MarkdownSections.t * nat) :=
    let '(sections, index) := st in
    let stripTokens tokens sections header :=
      enter (stripToken header) tokens sections in
    (* if (token.type === "heading") *)
    '(sections, index) ←
      match token with
      | T_heading depth _ =>
        sections ← finalize_at sections index;
        Ok (sections ++ [MarkdownSections.Make [] depth []], S index)
      | _ => Ok (sections, index)
      end;
    (* if ("tokens" in token && token.tokens) *)
    sections ←
      match token with
      | T_heading _ tokens => stripTokens tokens sections true
      | T_blockquote tokens | T_list_item tokens | T_paragraph tokens
      | T_link tokens | T_strong tokens | T_em tokens | T_del tokens
      | T_text _ (Some tokens) => stripTokens tokens sections false
      | _ => Ok sections
      end;
    (* switch (token.type) *)
    sections ←
      match token with
      | T_space raw => append_at sections index header raw
      | T_code lang text =>
        if bool_decide (lang = Some (js "math")) then Ok sections
        else append_at sections index header text
      | T_table cells rows =>
        let row cells sections :=
          sections ←
            for_of (λ cell sections,
                      sections ← stripTokens cell sections header;
                      append_at sections index header (js " "))
                   cells sections;
          append_at sections index header nl in
        sections ← row cells sections;
        for_of row rows sections
      | T_list items => stripTokens items sections header
      | T_list_item _ => append_at sections index header nl
      | T_html text =>
        append_at sections index header
          (trim (sanitizeHtml text plain_text_options) ++ nl ++ nl)
      | T_text raw None => append_at sections index header raw
      | T_image title text =>
        append_at sections index header
          (if truthy_opt title then nullish_else title [] else text)
      | T_codespan text => append_at sections index header text
      | _ => Ok sections
      end;
    Ok (sections, index).

Definition stripTokens (tokens : list Token)
      (sections : list MarkdownSections.t) (header : bool)
      : result (list MarkdownSections.t) :=
    enter (stripToken header) tokens sections.

Definition stripSplitBySections (markdown : jsstring)
      (opts : RenderOptions.t) : result (list MarkdownSections.t) :=
    let markdown :=
      replaceAll_string INLINE_MATH_REGEXP []
        (replaceAll_string BLOCK_MATH_REGEXP [] (emojify markdown)) in
    let tokens := lexer markdown (getOpts opts) in
    stripTokens tokens [MarkdownSections.Make [] 0 []] false.

  (** [l.join(sep)] *)
Fixpoint join (sep : jsstring) (l : list jsstring) : jsstring :=
    match l with
    | [] => []
    | [x] => x
    | x :: l' => x ++ sep ++ join sep l'
    end.

Definition strip (markdown : jsstring) (opts : RenderOptions.t)
      : result jsstring :=
    sections ← stripSplitBySections markdown opts;
    Ok (finalize
          (join (nl ++ nl)
             ((λ section,
                 MarkdownSections.header section ++ nl ++ nl
                 ++ MarkdownSections.content section) <$> sections))
        ++ nl).
End Strip.

(** ** The tokenizer of the stripper *)

(** [$] at the end of an expression without the [m] flag, as the
    continuation of the match: the input is exhausted. *)
Definition at_end : mcont :=
  λ s c, match s with [] => Some (s, c) | _ :: _ => None end.

(** [r.test(s)] for the expression [r$]: a match of [r] that starts
    somewhere in [s] and ends where [s] ends. *)
Fixpoint test_until_end (r : regex) (s : jsstring) : bool :=
  match rmatch r s None at_end with
  | Some _ => true
  | None =>
    match s with
    | [] => false
    | _ :: s' => test_until_end r s'
    end
  end.

(** [r.test(s)] for the expression [^r]: a match at the head of [s]. *)
Definition test_at_start (r : regex) (s : jsstring) : bool :=
  match match_here r s with Some _ => true | None => false end.

Module StripTokenizer.
Section Codespan.
  (** [this.rules.inline.code.exec(src)] of the tokenizer of the parser:
      [cap[0]] and [cap[2]] of the match, or [null]. *)
Variable rules_inline_code_exec : jsstring → option (jsstring * jsstring).

  (** [codespan] returns the token, of which [stripTokens] reads the text,
      or [undefined]. *)
Definition codespan (src : jsstring) : option Token :=
    match rules_inline_code_exec src with
    | Some (cap0, cap2) =>
      let text := replaceAll_string (RLit LF) (js " ") cap2 in
      let hasNonSpaceChars :=
        regex_test (RChar (λ c, negb (c =? SPACE))) text in
      let hasSpaceCharsOnBothEnds :=
        test_at_start (RLit SPACE) text && test_until_end (RLit SPACE) text in
      let text :=
        if hasNonSpaceChars && hasSpaceCharsOnBothEnds
        then substring text 1 (Z.of_nat (length text) - 1)
        else text in
      Some (T_codespan text)
    | None => None
    end.
End Codespan.
End StripTokenizer.

(** ** The hook on the tokens of render *)

(** [s.endsWith(p)] *)
Definition endsWith (s p : jsstring) : bool :=
  startsWith (reverse s) (reverse p).

(** [s.replace(p, rep)] for a string [p] and a replacement free of [$]
    patterns: the first occurrence of [p] is replaced. *)
Definition replace_first (s p rep : jsstring) : jsstring :=
  let i := indexOf s p in
  if (i <? 0)%Z then s
  else take (Z.to_nat i) s ++ rep ++ drop (Z.to_nat i + length p) s.

Definition SUMMARY_BREAK : jsstring := js "</summary>" ++ nl ++ nl.

(** The [walkTokens] hook that [render] installs, on the tokens that have a
    text. *)
Definition walkTokens (token : Token) : Token :=
  match token with
  | T_html text =>
    if endsWith text SUMMARY_BREAK
    then T_html (replace_first text SUMMARY_BREAK (js "</summary>" ++ nl))
    else token
  | _ => token
  end.

(** * Vocabulary of the statements *)

(** ** Texts *)

(** [p] occurs in [s] at offset [q]. *)
Definition occurs_at (s p : jsstring) (q : nat) : Prop :=
  take (length p) (drop q s) = p.

(** The number of newlines at the head of [s]. *)
Fixpoint nlrun (s : jsstring) : nat :=
  match s with
  | c :: s' => if LF =? c then S (nlrun s') else 0
  | [] => 0
  end.

(** [s] has no run of three newlines, [k] newlines standing before it. *)
Fixpoint runs_below3 (k : nat) (s : jsstring) : bool :=
  match s with
  | c :: s' =>
    if LF =? c then (S k <? 3)%nat && runs_below3 (S k) s'
    else runs_below3 0 s'
  | [] => true
  end.

(** [s] contains no run of three or more consecutive newlines. *)
Definition no_newline_run3 (s : jsstring) : Prop :=
  ∀ a b, s ≠ a ++ [LF; LF; LF] ++ b.

(** [s] is what [trim] leaves of it. *)
Definition trimmed (s : jsstring) : Prop := trim s = s.

(** Neither end of [s] is white space. *)
Definition clean_ends (s : jsstring) : Prop :=
  (∀ c, head s = Some c → isWhiteSpace c = false)
  ∧ (∀ c, last s = Some c → isWhiteSpace c = false).

(** A text as [finalize] leaves it. *)
Definition final_text (s : jsstring) : Prop :=
  trimmed s ∧ no_newline_run3 s.

(** [.replace(/\n{3,}/g, "\n")] *)
Definition collapse (s : jsstring) : jsstring :=
  replaceAll_string NEWLINES3 nl s.

(** The newlines at the head of [collapse s]. *)
Definition nlrun_collapsed (s : jsstring) : nat :=
  if (3 <=? nlrun s)%nat then 1%nat else nlrun s.

(** ** Matches *)

(** A match hands to its continuation a suffix of the input. *)
Definition calls_suffix
    (body : jsstring → option jsstring → mcont → option mstate) : Prop :=
  ∀ s c k res, body s c k = Some res →
    ∃ s' c', s' `suffix_of` s ∧ k s' c' = Some res.

(** Moving the text already skipped in front of the result. *)
Definition shift (before : jsstring) (m : rmatch_result) : rmatch_result :=
  MatchResult (before ++ m_before m) (m_text m) (m_group1 m) (m_after m).

(** The text of a piece and the concatenation of the pieces. *)
Definition piece_text (p : piece) : jsstring :=
  match p with Lit t => t | Hit t _ => t end.

(** A replacement by a callback that does not throw. *)
Definition replace_with (r : regex)
    (g : jsstring → option jsstring → jsstring) (s : jsstring) : jsstring :=
  concat ((λ p, match p with
                | Lit t => t
                | Hit m p1 => g m p1
                end) <$> split_matches r s).

(** ** Rendering rules *)

(** Two states of a renderer instance with the same configuration: they
    differ at most in [lightYTEmbedImport], [mermaidImport] and the
    slugger. *)
Definition same_configuration (r r' : Renderer.t) : Prop :=
  Renderer.allowMath r' = Renderer.allowMath r
  ∧ Renderer.noLinks r' = Renderer.noLinks r
  ∧ Renderer.ytEmbed r' = Renderer.ytEmbed r
  ∧ Renderer.baseUrl r' = Renderer.baseUrl r
  ∧ Renderer.mermaidEnabled r' = Renderer.mermaidEnabled r
  ∧ Renderer.alertsEnabled r' = Renderer.alertsEnabled r
  ∧ Renderer.svgCheckboxes r' = Renderer.svgCheckboxes r.

(** The label of the anchor that the image rule emits in [link] mode. *)
Definition link_label (title : option jsstring) (alt : jsstring) : jsstring :=
  match title with
  | Some (c :: t) => c :: t
  | _ => match alt with
         | _ :: _ => alt
         | [] => js "Youtube video"
         end
  end.

(** The [title] attribute of an anchor, present when the title is truthy. *)
Definition titleAttr (title : option jsstring) : jsstring :=
  match title with
  | Some (c :: t) => js " title=" ++ dq ++ (c :: t) ++ dq
  | _ => []
  end.

(** The loop of [detectAlert], on any list of alerts. *)
Definition detect_in (toLowerCase : jsstring → jsstring)
    (l : list jsstring) (text : jsstring) : option jsstring :=
  foldl (λ result alert,
           if includes (toLowerCase text) alert then Some alert else result)
        None l.

(** What a match is replaced by: the markup when typesetting succeeds, the
    match itself when it throws. *)
Definition block_replacement
    (katex_renderToString : jsstring → bool → result jsstring)
    (match_ : jsstring) (p1 : option jsstring)
    : jsstring :=
  match p1 with
  | Some p =>
    match katex_renderToString (trim p) true with
    | Ok markup => markup
    | Throw _ => match_
    end
  | None => match_
  end.

Definition inline_replacement
    (katex_renderToString : jsstring → bool → result jsstring)
    (match_ : jsstring) (p1 : option jsstring)
    : jsstring :=
  match p1 with
  | Some p =>
    match katex_renderToString p false with
    | Ok markup => js " " ++ markup
    | Throw _ => match_
    end
  | None => match_
  end.

(** ** Tokens and sections *)

(** The depths of the heading tokens of a token, in the order in which
    [stripTokens] meets them: a token before its children, the children from
    left to right. *)
Fixpoint heading_depths (token : Token) : list nat :=
  match token with
  | T_heading depth tokens => depth :: flat_map heading_depths tokens
  | T_blockquote tokens | T_list_item tokens | T_paragraph tokens
  | T_link tokens | T_strong tokens | T_em tokens | T_del tokens
  | T_text _ (Some tokens) | T_list tokens => flat_map heading_depths tokens
  | T_table cells rows =>
    flat_map (flat_map heading_depths) cells
    ++ flat_map (flat_map (flat_map heading_depths)) rows
  | _ => []
  end.

Definition is_heading (token : Token) : bool :=
  match token with T_heading _ _ => true | _ => false end.

Definition finalized (section : MarkdownSections.t) : Prop :=
  final_text (MarkdownSections.header section)
  ∧ final_text (MarkdownSections.content section).

(** Every heading of the token list is an element of the list. *)
Definition headings_at_top (tokens : list Token) : Prop :=
  Forall (λ token,
            match token with
            | T_heading _ tokens => flat_map heading_depths tokens = []
            | _ => heading_depths token = []
            end) tokens.

(** The tokens that [stripSplitBySections] walks. *)
Definition lexed (emojify : jsstring → jsstring)
    (lexer : jsstring → MarkedOptions → list Token)
    (markdown : jsstring) (opts : RenderOptions.t)
    : list Token :=
  lexer (replaceAll_string INLINE_MATH_REGEXP []
           (replaceAll_string BLOCK_MATH_REGEXP [] (emojify markdown)))
        (getOpts opts).

(** What a part of the walk that meets the headings [g] does to the
    sections: it appends one section per heading, of the depth of the
    heading, and, when it meets no heading and runs at the last section,
    leaves the sections before the last as they are. *)
Definition walk_post (g : list nat) (sections : list MarkdownSections.t)
    (index : nat) (sections' : list MarkdownSections.t) : Prop :=
  MarkdownSections.depth <$> sections'
  = (MarkdownSections.depth <$> sections) ++ g
  ∧ (g = [] → S index = length sections →
     take index sections' = take index sections).

(** The statement of the walk lemma, on a token and on a list of tokens. *)
Definition token_spec (sanitizeHtml : jsstring → SanitizeOptions → jsstring)
    (token : Token) : Prop :=
  ∀ header sections index, (index < length sections)%nat →
    ∃ sections',
      stripToken sanitizeHtml header token (sections, index)
      = Ok (sections', if is_heading token then S index else index)
      ∧ walk_post (heading_depths token) sections index sections'.

Definition tokens_spec (sanitizeHtml : jsstring → SanitizeOptions → jsstring)
    (tokens : list Token) : Prop :=
  ∀ header sections, sections ≠ [] →
    ∃ sections',
      stripTokens sanitizeHtml tokens sections header = Ok sections'
      ∧ walk_post (flat_map heading_depths tokens) sections
          (length sections - 1) sections'.

(** A table row: each cell, a space after it, a newline at the end. *)
Definition strip_cells (sanitizeHtml : jsstring → SanitizeOptions → jsstring)
    (header : bool) (index : nat) (cells : list (list Token))
    (sections : list MarkdownSections.t) : result (list MarkdownSections.t) :=
  sections ←
    for_of (λ cell sections,
              sections ← stripTokens sanitizeHtml cell sections header;
              append_at sections index header (js " "))
           cells sections;
  append_at sections index header nl.

(** The invariant of the outermost loop when every heading is at the top:
    the index is the last one and the sections before it are finalized. *)
Definition top_invariant (st : list MarkdownSections.t * nat) : Prop :=
  S st.2 = length st.1 ∧ Forall finalized (take st.2 st.1).

(** Induction on a token, with the hypothesis on every child token. *)
Section TokenInduction.
Variable P : Token → Prop.
Hypothesis P_space : ∀ raw, P (T_space raw).
Hypothesis P_code : ∀ lang text, P (T_code lang text).
Hypothesis P_heading : ∀ depth tokens, Forall P tokens → P (T_heading depth tokens).
Hypothesis P_table : ∀ cells rows,
  Forall (Forall P) cells → Forall (Forall (Forall P)) rows →
  P (T_table cells rows).
Hypothesis P_hr : P T_hr.
Hypothesis P_blockquote : ∀ tokens, Forall P tokens → P (T_blockquote tokens).
Hypothesis P_list : ∀ items, Forall P items → P (T_list items).
Hypothesis P_list_item : ∀ tokens, Forall P tokens → P (T_list_item tokens).
Hypothesis P_paragraph : ∀ tokens, Forall P tokens → P (T_paragraph tokens).
Hypothesis P_html : ∀ text, P (T_html text).
Hypothesis P_text_leaf : ∀ raw, P (T_text raw None).
Hypothesis P_text : ∀ raw tokens, Forall P tokens → P (T_text raw (Some tokens)).
Hypothesis P_def : P T_def.
Hypothesis P_escape : P T_escape.
Hypothesis P_link : ∀ tokens, Forall P tokens → P (T_link tokens).
Hypothesis P_image : ∀ title text, P (T_image title text).
Hypothesis P_strong : ∀ tokens, Forall P tokens → P (T_strong tokens).
Hypothesis P_em : ∀ tokens, Forall P tokens → P (T_em tokens).
Hypothesis P_codespan : ∀ text, P (T_codespan text).
Hypothesis P_br : P T_br.
Hypothesis P_del : ∀ tokens, Forall P tokens → P (T_del tokens).

Fixpoint Token_nested_ind (token : Token) : P token :=
  let all := fix all (l : list Token) : Forall P l :=
    match l with
    | [] => @List.Forall_nil _ P
    | t :: l' => @List.Forall_cons _ P t l' (Token_nested_ind t) (all l')
    end in
  let all2 := fix all2 (l : list (list Token)) : Forall (Forall P) l :=
    match l with
    | [] => @List.Forall_nil _ (Forall P)
    | c :: l' => @List.Forall_cons _ (Forall P) c l' (all c) (all2 l')
    end in
  let all3 := fix all3 (l : list (list (list Token)))
      : Forall (Forall (Forall P)) l :=
    match l with
    | [] => @List.Forall_nil _ (Forall (Forall P))
    | r :: l' => @List.Forall_cons _ (Forall (Forall P)) r l' (all2 r) (all3 l')
    end in
  match token with
  | T_space raw => P_space raw
  | T_code lang text => P_code lang text
  | T_heading depth tokens => P_heading depth tokens (all tokens)
  | T_table cells rows => P_table cells rows (all2 cells) (all3 rows)
  | T_hr => P_hr
  | T_blockquote tokens => P_blockquote tokens (all tokens)
  | T_list items => P_list items (all items)
  | T_list_item tokens => P_list_item tokens (all tokens)
  | T_paragraph tokens => P_paragraph tokens (all tokens)
  | T_html text => P_html text
  | T_text raw None => P_text_leaf raw
  | T_text raw (Some tokens) => P_text raw tokens (all tokens)
  | T_def => P_def
  | T_escape => P_escape
  | T_link tokens => P_link tokens (all tokens)
  | T_image title text => P_image title text
  | T_strong tokens => P_strong tokens (all tokens)
  | T_em tokens => P_em tokens (all tokens)
  | T_codespan text => P_codespan text
  | T_br => P_br
  | T_del tokens => P_del tokens (all tokens)
  end.
End TokenInduction.

(** ** Texts and invariants of the further properties *)

(** The dollar sign. *)
Definition DOLLAR : N := 36.

(** The first section has an empty header. *)
Definition root_header_empty (sections : list MarkdownSections.t) : Prop :=
  ∃ root, sections !! 0%nat = Some root ∧ MarkdownSections.header root = [].

(** The invariant of a call of [stripTokens] that writes headers only when
    [header] is set: such a call never runs at the first section. [n] is a
    lower bound of the number of sections. *)
Definition walk_inv (n : nat) (header : bool)
    (st : list MarkdownSections.t * nat) : Prop :=
  root_header_empty st.1
  ∧ (st.2 < length st.1)%nat
  ∧ (header = true → 1 ≤ st.2)%nat
  ∧ (n ≤ length st.1)%nat.

Definition token_inv (sanitizeHtml : jsstring → SanitizeOptions → jsstring)
    (token : Token) : Prop :=
  ∀ n header sections index st',
    walk_inv n header (sections, index) →
    stripToken sanitizeHtml header token (sections, index) = Ok st' →
    walk_inv n header st'.

(** A newline becomes a space. *)
Definition unbreak (c : N) : N := if LF =? c then SPACE else c.

(** ** Sample collaborators *)

(** A resolver that accepts only an [http:] or [https:] base. *)
Definition URL_href_stub (href base : jsstring) : result jsstring :=
  if startsWith base (js "http") then Ok (base ++ href) else Throw TypeError.

(** Lower case of the ASCII letters, other code units unchanged. *)
Definition ascii_lower (s : jsstring) : jsstring :=
  (λ c, if (65 <=? c) && (c <=? 90) then c + 32 else c) <$> s.

(** Lower case of the ASCII letters and of U+0130, the capital I with a dot
    above, whose lower case is two code units: [i] and the combining dot
    U+0307. Other code units are taken as they are. *)
Definition dotted_lower (s : jsstring) : jsstring :=
  flat_map (λ c, if c =? 304 then [105; 775]
                 else if (65 <=? c) && (c <=? 90) then [c + 32] else [c]) s.

(** A quote with two markers after a capital I with a dot above. *)
Definition dotted_quote : jsstring := 304 :: js " [!NOTE] [!tip] x".

(** Upper case of the ASCII letters, other code units unchanged. *)
Definition ascii_upper (s : jsstring) : jsstring :=
  (λ c, if (97 <=? c) && (c <=? 122) then c - 32 else c) <$> s.

(** A lexer that returns the tokens of the document

      intro

      # Title
      body

    whatever it is given. *)
Definition sample_lexer (_ : jsstring) (_ : MarkedOptions) : list Token :=
  [ T_paragraph [T_text (js "intro") None];
    T_space (nl ++ nl);
    T_heading 1 [T_text (js "Title") None];
    T_paragraph [T_text (js "body") None] ].

(** A lexer that returns the tokens of [# Title], a blank line and
    [Some **bold** text.] whatever it is given. *)
Definition title_lexer (_ : jsstring) (_ : MarkedOptions) : list Token :=
  [ T_heading 1 [T_text (js "Title") None];
    T_paragraph [ T_text (js "Some ") None;
                  T_strong [T_text (js "bold") None];
                  T_text (js " text.") None ] ].

(** A lexer that returns the tokens of a quote that holds a heading and a
    block of HTML, followed by a heading at the top level. *)
Definition quote_lexer (_ : jsstring) (_ : MarkedOptions) : list Token :=
  [ T_blockquote [ T_heading 1 [T_text (js "T") None];
                   T_html (js "<div>x</div>") ];
    T_heading 2 [T_text (js "H2") None] ].

(** A lexer that returns a code block with four newlines in a row. *)
Definition code_lexer (_ : jsstring) (_ : MarkedOptions) : list Token :=
  [ T_code (Some []) (js "a" ++ nl ++ nl ++ nl ++ nl ++ js "b") ].

(** A typesetter that throws on a control sequence (a backslash, code unit
    92) and wraps anything else. *)
Definition sample_katex (tex : jsstring) (_ : bool) : result jsstring :=
  if includes tex [92] then Throw (Thrown 1)
  else Ok (js "<span>" ++ tex ++ js "</span>").

(** A parser that calls no rule: the text is the markup. *)
Definition sample_parse (_ _ : bool) (markdown : jsstring)
    (_ : MarkedOptions) : Rendering :=
  Rendered markdown.

(** A parser that returns the run of the document

      ![clip](https://youtu.be/dQw4w9WgXcQ)

    : one call of the image rule, and a paragraph around what it returns. *)
Definition image_parse (_ _ : bool) (_ : jsstring) (_ : MarkedOptions)
    : Rendering :=
  CallImage (js "https://youtu.be/dQw4w9WgXcQ") None (js "clip")
    (λ out, Rendered (js "<p>" ++ out ++ js "</p>" ++ nl)).

(** A typesetter that throws on every expression. *)
Definition failing_katex (_ : jsstring) (_ : bool) : result jsstring :=
  Throw (Thrown 1).

(** * Properties *)

(** ** YouTube recognition and the image rule *)

(** C5: YouTube URL recognition accepts the watch, short and embed forms of a
    link to video VIDEOID1234 and rejects a link to an mp4 file. *)
Theorem isYoutubeVideo_examples :
  isYoutubeVideo (js "https://www.youtube.com/watch?v=VIDEOID1234") = true
  ∧ isYoutubeVideo (js "https://youtu.be/VIDEOID1234") = true
  ∧ isYoutubeVideo (js "youtube.com/embed/VIDEOID1234") = true
  ∧ isYoutubeVideo (js "https://example.com/video.mp4") = false.
Proof. repeat split; vm_compute; reflexivity. Qed.

Lemma or_else_label title alt :
  or_else (Some (or_else title alt)) (js "Youtube video") = link_label title alt.
Proof. destruct title as [[|c t]|], alt as [|a alt]; reflexivity. Qed.

Lemma youtubeLinkToIframe_head url l title out :
  youtubeLinkToIframe url l title = Some out →
  ∃ rest, out = js "<lite-youtube" ++ rest ∨ out = js "<iframe" ++ rest.
Proof.
  unfold youtubeLinkToIframe. destruct (search _ _); [|discriminate].
  destruct l; intros [= <-]; eexists; [left|right]; reflexivity.
Qed.

(** C8: for an image whose src is a YouTube video, in embed mode [link], the
    image rule returns the anchor [<a href="src">label</a>], the label being
    the title if present, else the alt text, else "Youtube video"; this is
    not the markup of an embed (neither iframe nor lite player), and the
    renderer instance is left as it was. *)
Theorem image_youtube_link
    (contentType_extname : jsstring → option jsstring)
    (this : Renderer.t) (src : jsstring) (title : option jsstring)
    (alt : jsstring) :
  isYoutubeVideo src = true →
  Renderer.ytEmbed this = link →
  Renderer.image contentType_extname this src title alt
  = (js "<a href=" ++ dq ++ src ++ dq ++ js ">" ++ link_label title alt
     ++ js "</a>", this)
  ∧ ∀ l t, youtubeLinkToIframe src l t
           ≠ Some (Renderer.image contentType_extname this src title alt).1.
Proof.
  intros Hyt Hmode.
  assert (Heq : Renderer.image contentType_extname this src title alt
    = (js "<a href=" ++ dq ++ src ++ dq ++ js ">" ++ link_label title alt
       ++ js "</a>", this)).
  { unfold Renderer.image. rewrite Hyt, Hmode. cbn [andb YoutubeHandling_eqb].
    rewrite or_else_label. unfold tpl, quoted. cbn [concat].
    rewrite <- !app_assoc, app_nil_r. reflexivity. }
  split; [exact Heq|].
  intros l t Hif. rewrite Heq in Hif. cbn [fst] in Hif.
  apply youtubeLinkToIframe_head in Hif as [rest [H|H]]; discriminate H.
Qed.

Lemma image_youtube_link_witness :
  let this :=
    Renderer.Make false false link None None false false false true true in
  let src := js "https://youtu.be/dQw4w9WgXcQ" in
  isYoutubeVideo src = true
  ∧ Renderer.ytEmbed this = link
  ∧ Renderer.image (λ _, None) this src None (js "alt")
    = (js "<a href=" ++ dq ++ src ++ dq ++ js ">alt</a>", this).
Proof.
  intros this src.
  assert (Hyt : isYoutubeVideo src = true) by (vm_compute; reflexivity).
  assert (Hmode : Renderer.ytEmbed this = link) by reflexivity.
  split; [exact Hyt|]. split; [exact Hmode|].
  exact (proj1 (image_youtube_link (λ _, None) this src None (js "alt")
                  Hyt Hmode)).
Defined.

(** ** URL resolution failures *)

(** C4: when resolving against the configured base throws, neither rule
    throws: the link rule emits the anchor with the href it was given, and
    the media transform returns the tag with its [src] attribute deleted. *)
Theorem url_resolution_failure
    (URL_href : jsstring → jsstring → result jsstring)
    (this : Renderer.t) (href : jsstring) (title : option jsstring)
    (text : jsstring) (base : jsstring)
    (opts : RenderOptions.t) (tagName : jsstring)
    (attribs : gmap jsstring jsstring) (src mediaBase : jsstring)
    (e e' : exn) :
  Renderer.noLinks this = false →
  startsWith href (js "#") = false →
  Renderer.baseUrl this = Some base →
  truthy base = true →
  URL_href href base = Throw e →
  RenderOptions.mediaBaseUrl opts = Some mediaBase →
  truthy mediaBase = true →
  attribs !! js "src" = Some src →
  truthy src = true →
  URL_href src mediaBase = Throw e' →
  Renderer.link URL_href this href title text
  = Ok (js "<a href=" ++ dq ++ href ++ dq ++ titleAttr title
        ++ js " rel=" ++ dq ++ js "noopener noreferrer" ++ dq ++ js ">"
        ++ text ++ js "</a>")
  ∧ transformMedia URL_href opts tagName attribs
    = Ok (tagName, delete (js "src") attribs).
Proof.
  intros HnoLinks Hhash Hbase Htb Hfail Hmedia Htm Hsrc Hts Hfail'. split.
  - unfold Renderer.link. rewrite HnoLinks, Hhash, Hbase, Htb, Hfail.
    cbn [try_catch mbind result_bind]. f_equal.
    unfold tpl, quoted, titleAttr. cbn [concat].
    destruct title as [[|c t]|]; cbn [truthy];
      rewrite <- ?app_assoc, ?app_nil_r; reflexivity.
  - unfold transformMedia. rewrite Hmedia, Hsrc, Htm, Hts, Hfail'.
    reflexivity.
Qed.

Lemma url_resolution_failure_witness :
  let this :=
    Renderer.Make false false lite (Some (js "nowhere")) None false false
      false true true in
  let opts := set_mediaBaseUrl no_options (Some (js "nowhere")) in
  let attribs : gmap jsstring jsstring := {[ js "src" := js "a.png" ]} in
  Renderer.link URL_href_stub this (js "page") None (js "t")
  = Ok (js "<a href=" ++ dq ++ js "page" ++ dq
        ++ js " rel=" ++ dq ++ js "noopener noreferrer" ++ dq ++ js ">t</a>")
  ∧ transformMedia URL_href_stub opts (js "img") attribs
    = Ok (js "img", delete (js "src") attribs).
Proof.
  intros this opts attribs.
  exact (url_resolution_failure URL_href_stub this (js "page") None (js "t")
           (js "nowhere") opts (js "img") attribs (js "a.png") (js "nowhere")
           TypeError TypeError
           eq_refl eq_refl eq_refl eq_refl eq_refl eq_refl eq_refl
           ltac:(vm_compute; reflexivity) eq_refl eq_refl).
Defined.

(** ** The options object across a call of render *)

Lemma same_configuration_refl (r : Renderer.t) : same_configuration r r.
Proof. by repeat split. Qed.

Lemma same_configuration_trans (r1 r2 r3 : Renderer.t) :
  same_configuration r1 r2 → same_configuration r2 r3 →
  same_configuration r1 r3.
Proof.
  intros (?&?&?&?&?&?&?) (?&?&?&?&?&?&?). repeat split; congruence.
Qed.

Section RuleFrames.
Variable toLocaleLowerCase : jsstring → jsstring.
Variable katex_renderToString : jsstring → bool → result jsstring.
Variable Grammar : Type.
Variable Prism_languages : jsstring → option Grammar.
Variable Prism_highlight : jsstring → Grammar → option jsstring → jsstring.
Variable he_encode : jsstring → jsstring.
Variable minify : jsstring → jsstring.
Variable GitHubSlugger_slug : list jsstring → jsstring → jsstring.
Variable contentType_extname : jsstring → option jsstring.

Lemma heading_frame this text level raw :
  same_configuration this
    (Renderer.heading GitHubSlugger_slug this text level raw).2.
Proof.
  unfold Renderer.heading.
  destruct (Renderer.noLinks this), (Renderer.slugger this);
    by repeat split.
Qed.

Lemma image_frame this src title alt :
  same_configuration this
    (Renderer.image contentType_extname this src title alt).2.
Proof.
  unfold Renderer.image.
  destruct (isYoutubeVideo src && _); [apply same_configuration_refl|].
  destruct (isYoutubeVideo src); [|apply same_configuration_refl].
  destruct (youtubeLinkToIframe _ _ _) as [out|];
    [|apply same_configuration_refl].
  destruct (truthy out); by repeat split.
Qed.

Lemma code_frame this code language out this' :
  Renderer.code toLocaleLowerCase katex_renderToString Grammar
    Prism_languages Prism_highlight he_encode minify this code language
  = Ok (out, this') →
  same_configuration this this'.
Proof.
  unfold Renderer.code.
  destruct (Renderer.code_language _ _) as [[lang title]|]; [|discriminate].
  cbn [mbind result_bind].
  destruct (bool_decide (lang = Some (js "math")) && Renderer.allowMath this).
  - destruct (katex_renderToString code true); [|discriminate].
    intros [= _ <-]. apply same_configuration_refl.
  - destruct (Renderer.mermaidEnabled this && _);
      (destruct lang as [l|];
       [destruct (truthy l); [destruct (Prism_languages l)|]|]);
      intros [= _ <-]; by repeat split.
Qed.

(** Whatever rules the parser calls, it leaves the configuration of the
    instance as it was. *)
Lemma run_frame (p : Rendering) (this : Renderer.t) :
  same_configuration this
    (run toLocaleLowerCase katex_renderToString Grammar Prism_languages
       Prism_highlight he_encode minify GitHubSlugger_slug
       contentType_extname p this).2.
Proof.
  revert this.
  induction p as [html|text level raw k IH|src title alt k IH
                  |code language k IH]; intros this; cbn [run].
  - apply same_configuration_refl.
  - pose proof (heading_frame this text level raw) as Hf.
    destruct (Renderer.heading _ _ _ _ _) as [out this1]. cbn [snd] in Hf.
    exact (same_configuration_trans _ _ _ Hf (IH out this1)).
  - pose proof (image_frame this src title alt) as Hf.
    destruct (Renderer.image _ _ _ _ _) as [out this1]. cbn [snd] in Hf.
    exact (same_configuration_trans _ _ _ Hf (IH out this1)).
  - destruct (Renderer.code _ _ _ _ _ _ _ _ _ _) as [[out this1]|e] eqn:Hc.
    + exact (same_configuration_trans _ _ _
               (code_frame _ _ _ _ _ Hc) (IH out this1)).
    + apply same_configuration_refl.
Qed.

End RuleFrames.

Section RenderFrame.
Variable emojify : jsstring → jsstring.
Variable katex_renderToString : jsstring → bool → result jsstring.
Variable URL_href : jsstring → jsstring → result jsstring.
Variable toLocaleLowerCase : jsstring → jsstring.
Variable Grammar : Type.
Variable Prism_languages : jsstring → option Grammar.
Variable Prism_highlight : jsstring → Grammar → option jsstring → jsstring.
Variable he_encode : jsstring → jsstring.
Variable minify : jsstring → jsstring.
Variable GitHubSlugger_slug : list jsstring → jsstring → jsstring.
Variable contentType_extname : jsstring → option jsstring.
Variable marked_parse : bool → bool → jsstring → MarkedOptions → Rendering.
Variable sanitizeHtml : jsstring → SanitizeOptions → jsstring.
Variable sanitize_defaults_allowedTags : list jsstring.
Variable sanitize_defaults_allowedAttributes :
  gmap jsstring (list AllowedAttribute).
Variable KATEX_CLASSES : list jsstring.
Variable minified_mermaid_bootstrap : jsstring.

(** The instance that a call of render renders with comes out of it with
    its configuration as it was. *)
Lemma render_body_frame (markdown : jsstring) (opts : RenderOptions.t) :
  same_configuration (marked_renderer (getOpts opts))
    (render_body emojify katex_renderToString URL_href toLocaleLowerCase
       Grammar Prism_languages Prism_highlight he_encode minify
       GitHubSlugger_slug contentType_extname marked_parse sanitizeHtml
       sanitize_defaults_allowedTags sanitize_defaults_allowedAttributes
       KATEX_CLASSES minified_mermaid_bootstrap markdown opts).2.
Proof.
  unfold render_body.
  destruct (if flag (RenderOptions.allowMath opts) then _ else _) as [md|e];
    [|apply same_configuration_refl].
  match goal with
  | |- context [run ?a ?b ?c ?d ?e ?f ?g ?h ?i ?p ?r] =>
    pose proof (run_frame a b c d e f g h i p r) as Hf;
    destruct (run a b c d e f g h i p r) as [html renderer]
  end.
  exact Hf.
Qed.


End RenderFrame.


(** ** Merging the caller's allow-lists *)

Lemma mergeAttributes_lookup
    (defaults customs : gmap jsstring (list AllowedAttribute)) (tag : jsstring) :
  mergeAttributes defaults customs !! tag
  = match customs !! tag with
    | Some l => Some (nullish_else (defaults !! tag) [] ++ l)
    | None => defaults !! tag
    end.
Proof.
  unfold mergeAttributes. revert tag.
  apply (map_fold_weak_ind (λ merged m, ∀ tag,
    merged !! tag = match m !! tag with
                    | Some l => Some (nullish_else (defaults !! tag) [] ++ l)
                    | None => defaults !! tag
                    end)).
  - intros tag. rewrite lookup_empty. reflexivity.
  - intros i x m r Hi IH tag. destruct (decide (i = tag)) as [->|Hne].
    + rewrite !lookup_insert_eq. rewrite (IH tag), Hi. reflexivity.
    + rewrite !lookup_insert_ne by done. apply IH.
Qed.

Section Merge.
Variable URL_href : jsstring → jsstring → result jsstring.
Variable sanitize_defaults_allowedTags : list jsstring.
Variable sanitize_defaults_allowedAttributes :
  gmap jsstring (list AllowedAttribute).
Variable KATEX_CLASSES : list jsstring.

(** How the caller's allow-lists enter the options of the sanitizer: the
    allowed tags are the defaults followed by the caller's tags; for each tag
    the allowed attributes are the default attributes of the tag followed by
    the caller's; the allowed classes are merged tag by tag, a tag the caller
    lists taking the caller's entry, every other tag its default entry. *)
Lemma sanitizeOptions_merge (opts : RenderOptions.t) :
  let tags := nullish_else (RenderOptions.allowedTags opts) [] in
  let attrs := nullish_else (RenderOptions.allowedAttributes opts) ∅ in
  let cls := nullish_else (RenderOptions.allowedClasses opts) ∅ in
  let config :=
    sanitizeOptions URL_href sanitize_defaults_allowedTags
      sanitize_defaults_allowedAttributes KATEX_CLASSES opts in
  sanitize_allowedTags config
  = defaultAllowedTags sanitize_defaults_allowedTags opts ++ tags
  ∧ (∀ tag,
       sanitize_allowedAttributes config !! tag
       = match attrs !! tag with
         | Some l =>
           Some (nullish_else
                   (defaultAllowedAttributes
                      sanitize_defaults_allowedAttributes opts !! tag) []
                 ++ l)
         | None =>
           defaultAllowedAttributes sanitize_defaults_allowedAttributes opts
           !! tag
         end)
  ∧ ∃ merged,
      sanitize_allowedClasses config = Some merged
      ∧ ∀ tag,
          merged !! tag
          = match cls !! tag with
            | Some c => Some c
            | None => defaultAllowedClasses KATEX_CLASSES opts !! tag
            end.
Proof.
  intros tags attrs cls config. split; [reflexivity|]. split.
  - intros tag. unfold config, sanitizeOptions. cbn [sanitize_allowedAttributes].
    apply mergeAttributes_lookup.
  - eexists. split; [reflexivity|]. intros tag. fold cls.
    destruct (cls !! tag) as [c|] eqn:Hc.
    + apply lookup_union_Some_l. exact Hc.
    + rewrite lookup_union_r by exact Hc. reflexivity.
Qed.

End Merge.

(** C3, for a caller who allows the class [mine] on anchors: the default
    tags and the default attributes of anchors are still allowed, but the
    classes allowed on anchors are the caller's alone; the default class
    [anchor] of the tag is no longer allowed. *)
Theorem allowedClasses_replace_defaults
    (URL_href : jsstring → jsstring → result jsstring)
    (tags : list jsstring) (attrs : gmap jsstring (list AllowedAttribute))
    (katex_classes : list jsstring) :
  let opts := set_allowedClasses no_options
                (Some {[ js "a" := ClassesList [ClassName (js "mine")] ]}) in
  let config := sanitizeOptions URL_href tags attrs katex_classes opts in
  defaultAllowedClasses katex_classes opts !! js "a"
  = Some (ClassesList [ClassName (js "anchor")])
  ∧ sanitize_allowedTags config = defaultAllowedTags tags opts
  ∧ sanitize_allowedAttributes config !! js "a"
    = defaultAllowedAttributes attrs opts !! js "a"
  ∧ ∃ merged,
      sanitize_allowedClasses config = Some merged
      ∧ merged !! js "a" = Some (ClassesList [ClassName (js "mine")]).
Proof.
  intros opts config.
  destruct (sanitizeOptions_merge URL_href tags attrs katex_classes opts)
    as (Htags & Hattrs & merged & Hmerged & Hcls).
  fold config in Htags, Hattrs, Hmerged.
  split; [vm_compute; reflexivity|].
  split; [rewrite Htags; apply app_nil_r|].
  split; [rewrite Hattrs; reflexivity|].
  exists merged. split; [exact Hmerged|]. rewrite Hcls.
  vm_compute. reflexivity.
Qed.

(** ** Alert detection *)

Lemma startsWith_take (s p : jsstring) :
  startsWith s p = true ↔ take (length p) s = p.
Proof.
  revert s. induction p as [|a p IH]; intros [|b s]; cbn; try done.
  rewrite andb_true_iff, N.eqb_eq, IH. split.
  - intros [-> ->]. reflexivity.
  - intros [= -> ->]. done.
Qed.

Lemma indexOf_from_first (s p : jsstring) (i : Z) :
  includes s p = true →
  ∃ n : nat,
    indexOf_from i s p = (i + Z.of_nat n)%Z
    ∧ occurs_at s p n
    ∧ ∀ k, (k < n)%nat → ¬ occurs_at s p k.
Proof.
  revert i. induction s as [|x s IH]; intros i Hin.
  - cbn [includes] in Hin. rewrite orb_false_r in Hin. exists 0%nat.
    cbn [indexOf_from]. rewrite Hin. split; [lia|].
    split; [by apply startsWith_take|]. intros k Hk. lia.
  - cbn [includes] in Hin. cbn [indexOf_from].
    destruct (startsWith (x :: s) p) eqn:Hst.
    + exists 0%nat. split; [lia|]. split; [by apply startsWith_take|].
      intros k Hk. lia.
    + cbn [orb] in Hin.
      destruct (IH (i + 1)%Z Hin) as (n & Hn & Hocc & Hfirst).
      exists (S n). split; [rewrite Hn; lia|]. split; [exact Hocc|].
      intros [|k] Hk Hat.
      * unfold occurs_at in Hat. cbn [drop] in Hat.
        apply startsWith_take in Hat. congruence.
      * apply (Hfirst k); [lia|exact Hat].
Qed.

Lemma clamp_of_nat (s : jsstring) (n : nat) :
  clamp s (Z.of_nat n) = Nat.min n (length s).
Proof. unfold clamp. lia. Qed.

Lemma take_min_length (s : jsstring) (n : nat) :
  take (Nat.min n (length s)) s = take n s.
Proof.
  destruct (Nat.le_ge_cases n (length s)).
  - by rewrite Nat.min_l.
  - rewrite Nat.min_r, !take_ge by lia. done.
Qed.

Lemma drop_min_length (s : jsstring) (n : nat) :
  drop (Nat.min n (length s)) s = drop n s.
Proof.
  destruct (Nat.le_ge_cases n (length s)).
  - by rewrite Nat.min_l.
  - rewrite Nat.min_r, !drop_ge by lia. done.
Qed.

Lemma substring_prefix (s : jsstring) (n : nat) :
  substring s 0 (Z.of_nat n) = take n s.
Proof.
  unfold substring. change 0%Z with (Z.of_nat 0). rewrite !clamp_of_nat.
  rewrite !Nat.min_0_l, Nat.max_0_l, Nat.sub_0_r, drop_0.
  apply take_min_length.
Qed.

Lemma substring_from_drop (s : jsstring) (n : nat) :
  substring_from s (Z.of_nat n) = drop n s.
Proof.
  unfold substring_from. rewrite clamp_of_nat. apply drop_min_length.
Qed.

Section Alerts.
Variable toLowerCase : jsstring → jsstring.
Variable toUpperCase : jsstring → jsstring.
Variable super_blockquote : jsstring → jsstring.

Lemma detect_in_last (l : list jsstring) (text : jsstring) :
  match detect_in toLowerCase l text with
  | Some m =>
    ∃ i, l !! i = Some m
         ∧ includes (toLowerCase text) m = true
         ∧ ∀ j m', l !! j = Some m' →
                   includes (toLowerCase text) m' = true → (j ≤ i)%nat
  | None => ∀ m', m' ∈ l → includes (toLowerCase text) m' = false
  end.
Proof.
  induction l as [|a l IH] using rev_ind.
  - cbn. intros m' Hm'. by apply elem_of_nil in Hm'.
  - unfold detect_in in *. rewrite foldl_app. cbn [foldl].
    destruct (includes (toLowerCase text) a) eqn:Ha.
    + exists (length l). split; [by rewrite lookup_app_r, Nat.sub_diag|].
      split; [exact Ha|]. intros j m' Hj _.
      apply lookup_lt_Some in Hj. rewrite length_app in Hj. cbn in Hj. lia.
    + destruct (foldl _ None l) as [m|].
      * destruct IH as (i & Hi & Hm & Hlast). exists i.
        split; [by apply lookup_app_l_Some|]. split; [exact Hm|].
        intros j m' Hj Hm'. apply lookup_app_Some in Hj as [Hj|[Hlen Hj]].
        -- by apply (Hlast j m').
        -- apply list_lookup_singleton_Some in Hj as [_ <-]. congruence.
      * intros m' Hm'. apply elem_of_app in Hm' as [Hm'|Hm'].
        -- by apply IH.
        -- apply list_elem_of_singleton in Hm' as ->. exact Ha.
Qed.

(** Detection, and the cut where lower-casing keeps the offsets: when the
    lower-cased text of a blockquote includes two distinct markers,
    [detectAlert] returns the included marker that comes latest in the list
    [alerts], wherever the markers stand in the text; with alerts disabled
    the blockquote rule cuts out of the text the range at which that marker
    first occurs in the lower-cased text, a range of the text that is the
    marker up to case when lower-casing works code unit by code unit. *)
Theorem detectAlert_last_listed (this : Renderer.t) (text a b : jsstring) :
  a ∈ alerts → b ∈ alerts → a ≠ b →
  includes (toLowerCase text) a = true →
  includes (toLowerCase text) b = true →
  ∃ (m : jsstring) (i n : nat),
    detectAlert toLowerCase text = Some m
    ∧ alerts !! i = Some m
    ∧ (∀ j m', alerts !! j = Some m' →
               includes (toLowerCase text) m' = true → (j ≤ i)%nat)
    ∧ indexOf (toLowerCase text) m = Z.of_nat n
    ∧ occurs_at (toLowerCase text) m n
    ∧ (∀ k, (k < n)%nat → ¬ occurs_at (toLowerCase text) m k)
    ∧ (∀ lower, (∀ s, toLowerCase s = lower <$> s) →
         toLowerCase (take (length m) (drop n text)) = m)
    ∧ (Renderer.alertsEnabled this = false →
       Renderer.blockquote toLowerCase toUpperCase super_blockquote this text
       = js "<p><b>" ++ convertAlert toLowerCase toUpperCase m
         ++ js ": </b></p>"
         ++ trim (take n text ++ drop (n + length m) text) ++ js "</p>").
Proof.
  intros Ha _ _ Hina _.
  pose proof (detect_in_last alerts text) as Hd.
  change (detect_in toLowerCase alerts text) with (detectAlert toLowerCase text) in Hd.
  destruct (detectAlert toLowerCase text) as [m|] eqn:Hdet.
  2:{ rewrite (Hd a Ha) in Hina. discriminate. }
  destruct Hd as (i & Hi & Hm & Hlast).
  destruct (indexOf_from_first (toLowerCase text) m 0 Hm)
    as (n & Hn & Hocc & Hfirst).
  exists m, i, n. repeat (split; [done|]). split.
  { intros lower Hlower. unfold occurs_at in Hocc.
    rewrite Hlower in Hocc |- *. by rewrite fmap_take, fmap_drop. }
  intros Hoff. unfold Renderer.blockquote. rewrite Hdet, Hoff.
  assert (Htruthy : truthy m = true).
  { apply list_elem_of_lookup_2 in Hi. unfold alerts in Hi.
    repeat (apply elem_of_cons in Hi as [->|Hi]; [reflexivity|]).
    by apply elem_of_nil in Hi. }
  rewrite Htruthy. cbn [negb andb]. unfold indexOf. rewrite Hn.
  unfold cutStr. rewrite Z.add_0_l, <- Nat2Z.inj_add.
  rewrite substring_prefix, substring_from_drop.
  unfold tpl. cbn [concat]. rewrite app_nil_r. reflexivity.
Qed.

End Alerts.

Lemma detectAlert_last_listed_witness :
  let this :=
    Renderer.Make false false lite None None false false false false true in
  let text := js "[!Note] first, [!TIP] second" in
  ∃ (m : jsstring) (i n : nat),
    detectAlert ascii_lower text = Some m
    ∧ alerts !! i = Some m
    ∧ (∀ j m', alerts !! j = Some m' →
               includes (ascii_lower text) m' = true → (j ≤ i)%nat)
    ∧ indexOf (ascii_lower text) m = Z.of_nat n
    ∧ occurs_at (ascii_lower text) m n
    ∧ (∀ k, (k < n)%nat → ¬ occurs_at (ascii_lower text) m k)
    ∧ (∀ lower, (∀ s, ascii_lower s = lower <$> s) →
         ascii_lower (take (length m) (drop n text)) = m)
    ∧ (Renderer.alertsEnabled this = false →
       Renderer.blockquote ascii_lower ascii_upper (λ s, s) this text
       = js "<p><b>" ++ convertAlert ascii_lower ascii_upper m
         ++ js ": </b></p>"
         ++ trim (take n text ++ drop (n + length m) text) ++ js "</p>").
Proof.
  intros this text.
  apply (detectAlert_last_listed ascii_lower ascii_upper (λ s, s) this text
           (js "[!note]") (js "[!tip]")).
  - unfold alerts. apply elem_of_cons. left. reflexivity.
  - unfold alerts. apply elem_of_cons. right. apply elem_of_cons. left.
    reflexivity.
  - discriminate.
  - vm_compute. reflexivity.
  - vm_compute. reflexivity.
Defined.

(** C10: on the quote [dotted_quote], whose first code unit lower-cases to
    two code units, detection returns [[!tip]], the later listed of the two
    markers of the text, but the rule with alerts disabled does not cut the
    marker out: the offset of the marker, 11, is taken in the lower-cased
    text, where the marker stands one code unit further than in the text,
    at 10, so that the text loses the six code units after the bracket that
    opens the marker and keeps that bracket. *)
Theorem blockquote_cut_misplaced
    (toLowerCase toUpperCase : jsstring → jsstring)
    (super_blockquote : jsstring → jsstring) (this : Renderer.t) :
  toLowerCase dotted_quote = 105 :: 775 :: js " [!note] [!tip] x" →
  Renderer.alertsEnabled this = false →
  detectAlert toLowerCase dotted_quote = Some (js "[!tip]")
  ∧ occurs_at dotted_quote (js "[!tip]") 10
  ∧ indexOf (toLowerCase dotted_quote) (js "[!tip]") = 11%Z
  ∧ Renderer.blockquote toLowerCase toUpperCase super_blockquote this
      dotted_quote
    = js "<p><b>" ++ convertAlert toLowerCase toUpperCase (js "[!tip]")
      ++ js ": </b></p>" ++ 304 :: js " [!NOTE] [x" ++ js "</p>"
  ∧ Renderer.blockquote toLowerCase toUpperCase super_blockquote this
      dotted_quote
    ≠ js "<p><b>" ++ convertAlert toLowerCase toUpperCase (js "[!tip]")
      ++ js ": </b></p>" ++ trim (take 10 dotted_quote ++ drop 16 dotted_quote)
      ++ js "</p>".
Proof.
  intros Hlow Hoff.
  assert (Hdet : detectAlert toLowerCase dotted_quote = Some (js "[!tip]")).
  { unfold detectAlert. rewrite Hlow. vm_compute. reflexivity. }
  assert (Hidx : indexOf (toLowerCase dotted_quote) (js "[!tip]") = 11%Z).
  { rewrite Hlow. vm_compute. reflexivity. }
  assert (Hout : Renderer.blockquote toLowerCase toUpperCase super_blockquote
                   this dotted_quote
                 = js "<p><b>" ++ convertAlert toLowerCase toUpperCase (js "[!tip]")
                   ++ js ": </b></p>" ++ 304 :: js " [!NOTE] [x" ++ js "</p>").
  { unfold Renderer.blockquote. rewrite Hdet, Hoff, Hidx.
    change (truthy (js "[!tip]")) with true. cbn [negb andb].
    unfold tpl. cbn [concat]. rewrite app_nil_r.
    assert (Hcut : cutStr dotted_quote 11
                     (11 + Z.of_nat (length (js "[!tip]")))
                   = 304 :: js " [!NOTE] [x") by (vm_compute; reflexivity).
    rewrite Hcut. reflexivity. }
  split; [exact Hdet|]. split; [vm_compute; reflexivity|].
  split; [exact Hidx|]. split; [exact Hout|].
  rewrite Hout. intros H.
  apply app_inv_head in H. apply app_inv_head in H. apply app_inv_head in H.
  vm_compute in H. discriminate H.
Qed.

Lemma blockquote_cut_misplaced_witness :
  let this :=
    Renderer.Make false false lite None None false false false false true in
  dotted_lower dotted_quote = 105 :: 775 :: js " [!note] [!tip] x"
  ∧ Renderer.alertsEnabled this = false
  ∧ Renderer.blockquote dotted_lower ascii_upper (λ s, s) this dotted_quote
    = js "<p><b>Tip: </b></p>" ++ 304 :: js " [!NOTE] [x</p>".
Proof.
  intros this.
  assert (Hlow : dotted_lower dotted_quote
                 = 105 :: 775 :: js " [!note] [!tip] x")
    by (vm_compute; reflexivity).
  assert (Hoff : Renderer.alertsEnabled this = false) by reflexivity.
  split; [exact Hlow|]. split; [exact Hoff|].
  destruct (blockquote_cut_misplaced dotted_lower ascii_upper (λ s, s) this
              Hlow Hoff) as (_ & _ & _ & Hout & _).
  rewrite Hout. vm_compute. reflexivity.
Defined.

Example blockquote_two_markers :
  Renderer.blockquote ascii_lower ascii_upper (λ s, s)
    (Renderer.Make false false lite None None false false false false true)
    (js "[!TIP] first, [!Note] second")
  = js "<p><b>Tip: </b></p>first, [!Note] second</p>".
Proof. vm_compute. reflexivity. Qed.

(** ** The regular expression matcher *)

Section Matcher.
Implicit Types (r : regex) (s : jsstring) (c : option jsstring) (k : mcont).

Lemma star_loop_suffix greedy body n :
  calls_suffix body → calls_suffix (star_loop greedy body n).
Proof.
  intros Hbody. induction n as [|n IH]; intros s c k res H; cbn in H.
  - by exists s, c.
  - assert (Hiter : body s c (λ s' c',
        if (length s' <? length s)%nat
        then star_loop greedy body n s' c' k else None) = Some res →
      ∃ s' c', s' `suffix_of` s ∧ k s' c' = Some res).
    { intros Hb. apply Hbody in Hb as (s1 & c1 & Hs1 & Hb).
      destruct (length s1 <? length s)%nat; [|discriminate].
      apply IH in Hb as (s2 & c2 & Hs2 & Hb). exists s2, c2.
      split; [by etrans|done]. }
    destruct greedy.
    + destruct (body s c _) eqn:Hb.
      * injection H as ->. by apply Hiter.
      * by exists s, c.
    + destruct (k s c) eqn:Hk.
      * injection H as ->. by exists s, c.
      * by apply Hiter.
Qed.

Lemma rmatch_suffix r : calls_suffix (rmatch r).
Proof.
  induction r as [|p|r1 IH1 r2 IH2|r1 IH1 r2 IH2|g r IH|r IH|r IH];
    intros s c k res H; cbn in H.
  - by exists s, c.
  - destruct s as [|x s]; [discriminate|]. destruct (p x); [|discriminate].
    exists s, c. split; [by apply suffix_cons_r|done].
  - apply IH1 in H as (s1 & c1 & Hs1 & H).
    apply IH2 in H as (s2 & c2 & Hs2 & H). exists s2, c2.
    split; [by etrans|done].
  - destruct (rmatch r1 s c k) eqn:H1.
    + injection H as ->. exact (IH1 _ _ _ _ H1).
    + exact (IH2 _ _ _ _ H).
  - by apply (star_loop_suffix g (rmatch r) (length s) IH) in H.
  - apply IH in H as (s1 & c1 & Hs1 & H). by exists s1, (Some (take (length s - length s1) s)).
  - destruct (rmatch r s c _) as [[? c']|]; [|discriminate]. by exists s, c'.
Qed.

Lemma match_here_suffix r s rest c :
  match_here r s = Some (rest, c) → rest `suffix_of` s.
Proof.
  intros H. apply rmatch_suffix in H as (s' & c' & Hs & [= <- <-]). done.
Qed.

Lemma suffix_take_length (s rest : jsstring) :
  rest `suffix_of` s → take (length s - length rest) s ++ rest = s.
Proof.
  intros [pre ->]. rewrite length_app.
  replace (length pre + length rest - length rest)%nat with (length pre) by lia.
  by rewrite take_app_length.
Qed.

Lemma search_from_unfold r before s :
  search_from r before s
  = match match_here r s with
    | Some (rest, c) =>
      Some (MatchResult before (take (length s - length rest) s) c rest)
    | None =>
      match s with
      | [] => None
      | x :: s' => search_from r (before ++ [x]) s'
      end
    end.
Proof. destruct s; reflexivity. Qed.

(** The result of a search cuts the input in three. *)
Lemma search_from_split r before s m :
  search_from r before s = Some m →
  ∃ skipped, m_before m = before ++ skipped
             ∧ skipped ++ m_text m ++ m_after m = s.
Proof.
  revert before m. induction s as [|x s IH]; intros before m H;
    rewrite search_from_unfold in H;
    (destruct (match_here r _) as [[rest c]|] eqn:Hm;
     [ injection H as <-; exists []; split; [by rewrite app_nil_r|];
       exact (suffix_take_length _ _ (match_here_suffix r _ _ c Hm)) | ]).
  - discriminate.
  - apply IH in H as (skipped & Hb & Hs). exists (x :: skipped).
    rewrite Hb, <- app_assoc. split; [done|]. cbn. by rewrite Hs.
Qed.

Lemma search_split r s m :
  search r s = Some m → m_before m ++ m_text m ++ m_after m = s.
Proof.
  intros H. apply search_from_split in H as (skipped & -> & H). done.
Qed.

Lemma search_from_shift r before s :
  search_from r before s = shift before <$> search r s.
Proof.
  unfold search. revert before.
  induction s as [|x s IH]; intros before;
    rewrite (search_from_unfold r before), (search_from_unfold r []);
    (destruct (match_here r _) as [[rest c]|];
     [ cbn; unfold shift; cbn; by rewrite app_nil_r | ]).
  - done.
  - rewrite (IH (before ++ [x])), (IH ([] ++ [x])).
    destruct (search_from r [] s) as [m|]; cbn; [|done].
    unfold shift. cbn. by rewrite <- app_assoc.
Qed.

Lemma split_loop_lossless fuel r s :
  concat (piece_text <$> split_loop fuel r s) = s.
Proof.
  revert s. induction fuel as [|fuel IH]; intros s; cbn.
  - by rewrite app_nil_r.
  - destruct (search r s) as [m|] eqn:Hm; cbn; [|by rewrite app_nil_r].
    apply search_split in Hm. rewrite <- Hm. do 2 f_equal.
    destruct (m_text m) as [|y t]; [destruct (m_after m) as [|x rest]|]; cbn.
    + done.
    + by rewrite IH.
    + by rewrite IH.
Qed.

(** More fuel than the length of the input changes nothing. *)
Lemma split_loop_fuel fuel fuel' r s :
  (length s < fuel)%nat → (length s < fuel')%nat →
  split_loop fuel r s = split_loop fuel' r s.
Proof.
  revert fuel' s. induction fuel as [|fuel IH]; intros [|fuel'] s Hf Hf';
    try lia.
  cbn. destruct (search r s) as [m|] eqn:Hm; [|done].
  apply search_split in Hm. apply (f_equal length) in Hm.
  rewrite !length_app in Hm. do 2 f_equal.
  destruct (m_text m) as [|y t]; [destruct (m_after m) as [|x rest]|];
    cbn in Hm.
  - done.
  - f_equal. apply IH; lia.
  - apply IH; lia.
Qed.

End Matcher.

(** ** Replacing by a string *)

Lemma split_loop_S fuel r s :
  split_loop (S fuel) r s
  = match search r s with
    | None => [Lit s]
    | Some m =>
      Lit (m_before m) :: Hit (m_text m) (m_group1 m) ::
      match m_text m, m_after m with
      | [], [] => []
      | [], x :: rest => Lit [x] :: split_loop fuel r rest
      | _ :: _, rest => split_loop fuel r rest
      end
    end.
Proof. reflexivity. Qed.

Section ReplaceString.
Variable r : regex.
Variable rep : jsstring.

#[local] Opaque split_loop.

Lemma replaceAll_string_nil :
  match_here r [] = None → replaceAll_string r rep [] = [].
Proof.
  intros H. unfold replaceAll_string, split_matches. rewrite split_loop_S.
  unfold search. rewrite search_from_unfold, H. reflexivity.
Qed.

(** No match at the head: the head is copied. *)
Lemma replaceAll_string_miss (x : N) (s : jsstring) :
  match_here r (x :: s) = None →
  replaceAll_string r rep (x :: s) = x :: replaceAll_string r rep s.
Proof.
  intros H. unfold replaceAll_string, split_matches.
  rewrite (split_loop_S _ r (x :: s)), (split_loop_S _ r s).
  unfold search at 1. rewrite search_from_unfold, H, search_from_shift.
  destruct (search r s) as [m|] eqn:Hm; [|reflexivity].
  apply search_split in Hm. apply (f_equal length) in Hm.
  rewrite !length_app in Hm. cbn. do 3 f_equal.
  destruct (m_text m) as [|y t]; [destruct (m_after m) as [|z rest]|];
    cbn in Hm.
  - done.
  - by rewrite (split_loop_fuel (S (length s)) (length s) r rest) by lia.
  - by rewrite (split_loop_fuel (S (length s)) (length s) r (m_after m))
      by lia.
Qed.

(** A match at the head that consumes something: it is replaced, and the
    replacement goes on after it. *)
Lemma replaceAll_string_hit (s rest : jsstring) (c : option jsstring) :
  match_here r s = Some (rest, c) →
  (length rest < length s)%nat →
  replaceAll_string r rep s = rep ++ replaceAll_string r rep rest.
Proof.
  intros H Hlen. unfold replaceAll_string, split_matches.
  rewrite (split_loop_S _ r s). unfold search. rewrite search_from_unfold, H.
  cbn [m_text m_after m_before m_group1].
  destruct (take (length s - length rest) s) as [|y t] eqn:Ht.
  { apply (f_equal length) in Ht. rewrite length_take in Ht. cbn in Ht. lia. }
  cbn. by rewrite (split_loop_fuel (length s) (S (length rest)) r rest) by lia.
Qed.

End ReplaceString.

(** ** Runs of newlines *)

#[local] Arguments N.eqb : simpl never.
#[local] Arguments Nat.ltb : simpl never.
#[local] Arguments LF : simpl never.

Lemma runs_below3_no_run k a b : runs_below3 k (a ++ [LF; LF; LF] ++ b) = false.
Proof.
  revert k. induction a as [|c a IH]; intros k; cbn.
  - rewrite N.eqb_refl. destruct k as [|[|k]]; reflexivity.
  - destruct (LF =? c); [|apply IH]. cbn in IH. rewrite IH. apply andb_false_r.
Qed.

Lemma runs_below3_sound s : runs_below3 0 s = true → no_newline_run3 s.
Proof. intros H a b ->. by rewrite runs_below3_no_run in H. Qed.

Lemma runs_below3_head k s :
  head s ≠ Some LF → runs_below3 k s = runs_below3 0 s.
Proof.
  destruct s as [|c s]; [done|]. cbn. destruct (N.eqb_spec LF c) as [<-|]; done.
Qed.

Lemma runs_below3_snoc k s :
  runs_below3 k s = true →
  (s = [] → (k < 2)%nat) →
  last s ≠ Some LF →
  runs_below3 k (s ++ [LF]) = true.
Proof.
  revert k. induction s as [|c s IH]; intros k Hok Hnil Hlast; cbn.
  - specialize (Hnil eq_refl). rewrite N.eqb_refl.
    destruct k as [|[|k]]; [done..|lia].
  - cbn in Hok. destruct (N.eqb_spec LF c) as [<-|Hc].
    + apply andb_true_iff in Hok as [Hk Hok]. rewrite Hk. cbn.
      apply IH; [done| |].
      * by intros ->.
      * intros Hl. apply Hlast. rewrite last_cons, Hl. done.
    + apply IH; [done|lia|]. intros Hl. apply Hlast. rewrite last_cons, Hl. done.
Qed.

Lemma nlrun_drop s : nlrun (drop (nlrun s) s) = 0%nat.
Proof.
  induction s as [|c s IH]; [done|]. cbn. destruct (LF =? c) eqn:Hc; cbn.
  - exact IH.
  - by rewrite Hc.
Qed.

Lemma nlrun_le s : (nlrun s ≤ length s)%nat.
Proof.
  induction s as [|c s IH]; cbn; [lia|]. destruct (LF =? c); cbn; lia.
Qed.

Lemma nlrun_0_head s : nlrun s = 0%nat → head s ≠ Some LF.
Proof.
  destruct s as [|c s]; [done|]. cbn.
  destruct (N.eqb_spec LF c) as [<-|Hc]; [done|]. intros _ [= ->]. done.
Qed.

Lemma nlrun_pos_head s : (0 < nlrun s)%nat → head s = Some LF.
Proof.
  destruct s as [|c s]; cbn; [lia|].
  destruct (N.eqb_spec LF c) as [<-|Hc]; [done|lia].
Qed.

Lemma last_drop_nlrun s :
  drop (nlrun s) s ≠ [] → last (drop (nlrun s) s) = last s.
Proof.
  induction s as [|c s IH]; [done|]. cbn. destruct (LF =? c); cbn; [|done].
  intros Hne. rewrite (IH Hne), last_cons.
  destruct (last s) eqn:Hl; [done|]. apply last_None in Hl as ->.
  by rewrite drop_nil in Hne.
Qed.

Lemma last_all_newlines s :
  (0 < nlrun s)%nat → drop (nlrun s) s = [] → last s = Some LF.
Proof.
  induction s as [|c s IH]; cbn; [lia|].
  destruct (N.eqb_spec LF c) as [<-|Hc]; [|lia].
  cbn. intros _ Hd. rewrite last_cons.
  destruct s as [|c' s]; [done|]. rewrite IH; [done| |done].
  destruct (nlrun (c' :: s)) eqn:Hn; [|lia]. by rewrite drop_0 in Hd.
Qed.

(** ** Collapsing runs of newlines *)

Lemma star_newlines n s c :
  (length s ≤ n)%nat →
  star_loop true (rmatch (RLit LF)) n s c (λ s' c', Some (s', c'))
  = Some (drop (nlrun s) s, c).
Proof.
  revert s. induction n as [|n IH]; intros s Hn.
  - destruct s; [done|cbn in Hn; lia].
  - destruct s as [|x s]; [done|]. cbn [star_loop rmatch RLit nlrun].
    destruct (LF =? x) eqn:Hx; [|done].
    cbn [length]. rewrite (proj2 (Nat.ltb_lt _ _)) by lia.
    rewrite IH by (cbn in Hn; lia). done.
Qed.

Lemma match_here_NEWLINES3 s :
  match_here NEWLINES3 s
  = if (3 <=? nlrun s)%nat then Some (drop (nlrun s) s, None) else None.
Proof.
  unfold match_here, NEWLINES3.
  destruct s as [|x1 s]; [done|]. cbn [rmatch RRep RLit nlrun].
  destruct (LF =? x1); [|done].
  destruct s as [|x2 s]; [done|]. cbn [rmatch RRep RLit nlrun].
  destruct (LF =? x2); [|done].
  destruct s as [|x3 s]; [done|]. cbn [rmatch RRep RLit nlrun].
  destruct (LF =? x3); [|done].
  fold (RLit LF). rewrite star_newlines by done. done.
Qed.

(** The equation of [collapse]: a run of three or more newlines leaves one
    newline; any other code unit is copied. *)
Lemma collapse_eq s :
  collapse s
  = if (3 <=? nlrun s)%nat then LF :: collapse (drop (nlrun s) s)
    else match s with
         | [] => []
         | x :: s' => x :: collapse s'
         end.
Proof.
  unfold collapse. pose proof (match_here_NEWLINES3 s) as Hm.
  destruct (3 <=? nlrun s)%nat eqn:Hrun.
  - apply Nat.leb_le in Hrun.
    apply (replaceAll_string_hit _ nl) in Hm; [done|].
    rewrite length_drop. pose proof (nlrun_le s). lia.
  - destruct s as [|x s].
    + by apply replaceAll_string_nil.
    + by apply replaceAll_string_miss.
Qed.

Lemma collapse_props n s :
  (length s ≤ n)%nat →
  head (collapse s) = head s
  ∧ last (collapse s) = last s
  ∧ ∀ k, (k + nlrun_collapsed s < 3)%nat → runs_below3 k (collapse s) = true.
Proof.
  revert s. induction n as [|n IH]; intros s Hn.
  { destruct s; [|cbn in Hn; lia]. rewrite collapse_eq. cbn. done. }
  rewrite collapse_eq. unfold nlrun_collapsed.
  destruct (3 <=? nlrun s)%nat eqn:Hrun.
  - apply Nat.leb_le in Hrun. pose proof (nlrun_le s) as Hle.
    destruct (IH (drop (nlrun s) s)) as (Hh & Hl & Hok).
    { rewrite length_drop. lia. }
    pose proof (nlrun_drop s) as H0.
    split; [by rewrite (nlrun_pos_head s) by lia|]. split.
    + rewrite last_cons, Hl.
      destruct (drop (nlrun s) s) as [|y t] eqn:Hd.
      * cbn. symmetry. apply last_all_newlines; [lia|done].
      * rewrite <- Hd, last_drop_nlrun by (rewrite Hd; done).
        destruct (last s) eqn:Hls; [done|]. apply last_None in Hls.
        subst s. cbn in Hrun. lia.
    + intros k Hk. cbn [runs_below3]. rewrite N.eqb_refl.
      rewrite (proj2 (Nat.ltb_lt _ _)) by lia. cbn [andb].
      rewrite runs_below3_head by (rewrite Hh; by apply nlrun_0_head).
      apply Hok. unfold nlrun_collapsed. rewrite H0. cbn. lia.
  - apply Nat.leb_gt in Hrun. destruct s as [|x s]; [done|].
    destruct (IH s) as (Hh & Hl & Hok); [cbn in Hn; lia|].
    split; [done|]. split.
    + rewrite !last_cons, Hl. done.
    + intros k Hk. cbn [runs_below3]. cbn [nlrun] in Hrun, Hk.
      destruct (LF =? x).
      * rewrite (proj2 (Nat.ltb_lt _ _)) by lia. cbn [andb]. apply Hok.
        unfold nlrun_collapsed.
        rewrite (proj2 (Nat.leb_gt _ _)) by lia. lia.
      * apply Hok. unfold nlrun_collapsed.
        destruct (3 <=? nlrun s)%nat eqn:Hs; [lia|].
        apply Nat.leb_gt in Hs. lia.
Qed.

Lemma collapse_head s : head (collapse s) = head s.
Proof. by apply (collapse_props (length s)). Qed.

Lemma collapse_last s : last (collapse s) = last s.
Proof. by apply (collapse_props (length s)). Qed.

Lemma collapse_runs s : runs_below3 0 (collapse s) = true.
Proof.
  apply (collapse_props (length s)); [done|]. unfold nlrun_collapsed.
  destruct (3 <=? nlrun s)%nat eqn:Hs; [lia|]. apply Nat.leb_gt in Hs. lia.
Qed.

(** ** Trimming *)

Lemma trimStart_head s c :
  head (trimStart s) = Some c → isWhiteSpace c = false.
Proof.
  induction s as [|x s IH]; [done|]. cbn [trimStart].
  destruct (isWhiteSpace x) eqn:Hx; [exact IH|]. by intros [= <-].
Qed.

Lemma trimStart_id s :
  (∀ c, head s = Some c → isWhiteSpace c = false) → trimStart s = s.
Proof.
  destruct s as [|x s]; [done|]. intros H. cbn [trimStart].
  by rewrite (H x eq_refl).
Qed.

Lemma trimStart_suffix s : trimStart s `suffix_of` s.
Proof.
  induction s as [|x s IH]; [done|]. cbn [trimStart].
  destruct (isWhiteSpace x); [by apply suffix_cons_r|done].
Qed.

Lemma suffix_last (s t : jsstring) :
  s `suffix_of` t → s ≠ [] → last s = last t.
Proof.
  intros [pre ->] Hne. rewrite last_app.
  destruct (last s) eqn:Hl; [done|]. by apply last_None in Hl.
Qed.

Lemma trim_clean_ends s : clean_ends (trim s).
Proof.
  unfold trim, trimEnd. split; intros c Hc.
  - rewrite head_reverse in Hc.
    destruct (trimStart (reverse (trimStart s))) as [|y t] eqn:Ht; [done|].
    rewrite <- Ht in Hc.
    rewrite (suffix_last _ _ (trimStart_suffix _)) in Hc by (rewrite Ht; done).
    rewrite last_reverse in Hc. by apply trimStart_head in Hc.
  - rewrite last_reverse in Hc. by apply trimStart_head in Hc.
Qed.

Lemma clean_ends_trim s : clean_ends s → trim s = s.
Proof.
  intros [Hh Hl]. unfold trim, trimEnd. rewrite (trimStart_id s Hh).
  rewrite trimStart_id; [apply reverse_involutive|].
  intros c. rewrite head_reverse. apply Hl.
Qed.

Lemma trimmed_clean_ends s : trimmed s ↔ clean_ends s.
Proof.
  split; [|apply clean_ends_trim].
  intros H. rewrite <- H. apply trim_clean_ends.
Qed.

Lemma trim_trimmed s : trimmed (trim s).
Proof. apply trimmed_clean_ends, trim_clean_ends. Qed.

(** ** Finalizing a text *)

Lemma finalize_collapse s : finalize s = collapse (trim s).
Proof. reflexivity. Qed.

Lemma finalize_clean_ends s : clean_ends (finalize s).
Proof.
  rewrite finalize_collapse. destruct (trim_clean_ends s) as [Hh Hl].
  split; intros c; [rewrite collapse_head|rewrite collapse_last]; auto.
Qed.

Lemma finalize_trimmed s : trimmed (finalize s).
Proof. apply trimmed_clean_ends, finalize_clean_ends. Qed.

Lemma finalize_no_newline_run3 s : no_newline_run3 (finalize s).
Proof. apply runs_below3_sound, collapse_runs. Qed.

(** A finalized text followed by a newline has no run of three newlines. *)
Lemma finalize_newline_no_run3 s : no_newline_run3 (finalize s ++ nl).
Proof.
  apply runs_below3_sound, runs_below3_snoc.
  - apply collapse_runs.
  - lia.
  - intros Hl. by apply (proj2 (finalize_clean_ends s)) in Hl.
Qed.

(** Three newlines in a row leave one newline, not a blank line. *)
Example finalize_three_newlines :
  finalize (js "a" ++ nl ++ nl ++ nl ++ js "b") = js "a" ++ nl ++ js "b".
Proof. vm_compute. reflexivity. Qed.

(** ** The walk over the token tree *)

(** The loop invariant of [for_of]: [I done s] holds of the state [s]
    reached when the elements [done] have been visited. *)
Lemma for_of_invariant {A S : Type} (f : A → S → result S)
    (I : list A → S → Prop) (l : list A) (s0 : S) :
  I [] s0 →
  (∀ done x s, x ∈ l → I done s → ∃ s', f x s = Ok s' ∧ I (done ++ [x]) s') →
  ∃ s', for_of f l s0 = Ok s' ∧ I l s'.
Proof.
  intros H0 Hstep.
  cut (∀ done s, I done s → ∃ s', for_of f l s = Ok s' ∧ I (done ++ l) s').
  { intros H. apply (H [] s0 H0). }
  clear H0 s0. induction l as [|x l IH]; intros done s HI.
  - exists s. by rewrite app_nil_r.
  - destruct (Hstep done x s) as (s1 & Hf & H1); [by left|done|].
    destruct (IH (λ d y s Hy, Hstep d y s (list_elem_of_further _ _ _ Hy))
                 (done ++ [x]) s1 H1) as (s2 & Hl & H2).
    exists s2. cbn [for_of]. rewrite Hf. cbn. rewrite Hl.
    by rewrite <- app_assoc in H2.
Qed.

Section Walk.
Variable sanitizeHtml : jsstring → SanitizeOptions → jsstring.

Implicit Types (sections : list MarkdownSections.t) (index : nat).

Lemma walk_post_length g sections index sections' :
  walk_post g sections index sections' →
  length sections' = (length sections + length g)%nat.
Proof.
  intros [H _]. apply (f_equal length) in H.
  by rewrite length_app, !length_fmap in H.
Qed.

Lemma walk_post_refl sections index : walk_post [] sections index sections.
Proof. split; [by rewrite app_nil_r|done]. Qed.

Lemma walk_post_trans g1 g2 sections i s1 j s2 :
  walk_post g1 sections i s1 →
  walk_post g2 s1 j s2 →
  (g1 = [] → S i = length sections → j = i) →
  walk_post (g1 ++ g2) sections i s2.
Proof.
  intros H1 H2 Hj. pose proof (walk_post_length _ _ _ _ H1) as Hlen.
  destruct H1 as [Hd1 Hf1], H2 as [Hd2 Hf2]. split.
  - by rewrite Hd2, Hd1, app_assoc.
  - intros [-> ->]%app_eq_nil Hi. specialize (Hj eq_refl Hi). subst j.
    cbn in Hlen. rewrite Hf2, Hf1; [done..|lia].
Qed.

Lemma walk_post_trans_last g1 g2 sections i s1 s2 :
  walk_post g1 sections i s1 →
  walk_post g2 s1 (length s1 - 1) s2 →
  walk_post (g1 ++ g2) sections i s2.
Proof.
  intros H1 H2. apply (walk_post_trans _ _ _ _ _ _ _ H1 H2).
  intros -> Hi. apply walk_post_length in H1. cbn in H1. lia.
Qed.

Lemma depth_insert sections index sec sec' :
  sections !! index = Some sec →
  MarkdownSections.depth sec' = MarkdownSections.depth sec →
  MarkdownSections.depth <$> <[index := sec']> sections
  = MarkdownSections.depth <$> sections.
Proof.
  intros Hsec Hd. rewrite list_fmap_insert, Hd.
  apply list_insert_id. by rewrite list_lookup_fmap, Hsec.
Qed.

Lemma append_at_spec sections index header text :
  (index < length sections)%nat →
  ∃ sections', append_at sections index header text = Ok sections'
               ∧ walk_post [] sections index sections'.
Proof.
  intros Hi. destruct (lookup_lt_is_Some_2 _ _ Hi) as [sec Hsec].
  unfold append_at. rewrite Hsec. eexists. split; [done|]. split.
  - rewrite app_nil_r. apply (depth_insert _ _ sec); [done|].
    by destruct header.
  - intros _ _. by apply take_insert_ge.
Qed.

Lemma finalize_at_spec sections index :
  (index < length sections)%nat →
  ∃ sec, sections !! index = Some sec
    ∧ finalize_at sections index
      = Ok (<[index := MarkdownSections.Make
                         (finalize (MarkdownSections.header sec))
                         (MarkdownSections.depth sec)
                         (finalize (MarkdownSections.content sec))]>
              sections).
Proof.
  intros Hi. destruct (lookup_lt_is_Some_2 _ _ Hi) as [sec Hsec].
  exists sec. unfold finalize_at. by rewrite Hsec.
Qed.

Lemma is_heading_depths token :
  is_heading token = true → heading_depths token ≠ [].
Proof. by destruct token. Qed.

Lemma not_heading_depths token :
  heading_depths token = [] → is_heading token = false.
Proof. by destruct token. Qed.

Lemma tokens_of_token tokens : Forall (token_spec sanitizeHtml) tokens → (tokens_spec sanitizeHtml) tokens.
Proof.
  intros Hall header sections Hne.
  assert (Hlen : (0 < length sections)%nat) by (destruct sections; cbn; [done|lia]).
  unfold stripTokens, enter.
  destruct (for_of_invariant (stripToken sanitizeHtml header)
    (λ done st,
       (st.2 < length st.1)%nat
       ∧ walk_post (flat_map heading_depths done) sections
           (length sections - 1) st.1
       ∧ (flat_map heading_depths done = [] → st.2 = (length sections - 1)%nat))
    tokens (sections, (length sections - 1)%nat))
    as ([sections' index'] & Hrun & Hlt & Hpost & _).
  - cbn. split; [lia|]. split; [apply walk_post_refl|done].
  - intros done x [s i] Hx (Hlt & Hpost & Hidx). cbn in Hlt, Hpost, Hidx.
    rewrite Forall_forall in Hall.
    destruct (Hall x Hx header s i Hlt) as (s' & Hrun & Hx').
    eexists. split; [exact Hrun|]. cbn [fst snd].
    pose proof (walk_post_length _ _ _ _ Hx') as Hlen'.
    rewrite flat_map_app. cbn [flat_map]. rewrite app_nil_r. split; [|split].
    + destruct (is_heading x) eqn:Hh; [|lia].
      apply is_heading_depths in Hh.
      destruct (heading_depths x); [done|cbn in Hlen'; lia].
    + apply (walk_post_trans _ _ _ _ _ _ _ Hpost Hx').
      intros Hnil _. by apply Hidx.
    + intros [Hnil Hx0]%app_eq_nil. rewrite (not_heading_depths _ Hx0).
      by apply Hidx.
  - exists sections'. rewrite Hrun. done.
Qed.

Lemma walk_post_index_lt g sections index sections' :
  (index < length sections)%nat →
  walk_post g sections index sections' →
  (index < length sections')%nat.
Proof. intros Hi H%walk_post_length. lia. Qed.

Lemma strip_cells_spec cells header sections index :
  Forall (tokens_spec sanitizeHtml) cells →
  (index < length sections)%nat →
  ∃ sections',
    strip_cells sanitizeHtml header index cells sections = Ok sections'
    ∧ walk_post (flat_map (flat_map heading_depths) cells) sections index
        sections'.
Proof.
  intros Hall Hi. unfold strip_cells.
  destruct (for_of_invariant
    (λ cell sections,
       sections ← stripTokens sanitizeHtml cell sections header;
       append_at sections index header (js " "))
    (λ done s,
       walk_post (flat_map (flat_map heading_depths) done) sections index s)
    cells sections) as (s1 & Hrun & Hpost).
  - apply walk_post_refl.
  - intros done cell s Hcell Hpost. rewrite Forall_forall in Hall.
    pose proof (walk_post_index_lt _ _ _ _ Hi Hpost) as Hlt.
    destruct (Hall cell Hcell header s) as (s1 & Hrun1 & Hpost1).
    { intros ->. cbn in Hlt. lia. }
    rewrite Hrun1. cbn [mbind result_bind].
    destruct (append_at_spec s1 index header (js " ")) as (s2 & Hrun2 & Hpost2).
    { apply walk_post_length in Hpost1. lia. }
    exists s2. split; [done|].
    rewrite flat_map_app. cbn [flat_map]. rewrite app_assoc.
    apply (walk_post_trans _ _ _ _ _ _ _
             (walk_post_trans_last _ _ _ _ _ _ Hpost Hpost1) Hpost2).
    done.
  - rewrite Hrun. cbn [mbind result_bind].
    destruct (append_at_spec s1 index header nl) as (s2 & Hrun2 & Hpost2).
    { by apply (walk_post_index_lt _ _ _ _ Hi Hpost). }
    exists s2. split; [done|].
    rewrite <- (app_nil_r (flat_map _ cells)).
    by apply (walk_post_trans _ _ _ _ _ _ _ Hpost Hpost2).
Qed.

Lemma strip_rows_spec rows header sections index :
  Forall (Forall (tokens_spec sanitizeHtml)) rows →
  (index < length sections)%nat →
  ∃ sections',
    for_of (strip_cells sanitizeHtml header index) rows sections = Ok sections'
    ∧ walk_post (flat_map (flat_map (flat_map heading_depths)) rows)
        sections index sections'.
Proof.
  intros Hall Hi.
  apply (for_of_invariant (strip_cells sanitizeHtml header index)
    (λ done s,
       walk_post (flat_map (flat_map (flat_map heading_depths)) done)
         sections index s)).
  - apply walk_post_refl.
  - intros done cells s Hcells Hpost. rewrite Forall_forall in Hall.
    destruct (strip_cells_spec cells header s index (Hall cells Hcells))
      as (s1 & Hrun1 & Hpost1).
    { by apply (walk_post_index_lt _ _ _ _ Hi Hpost). }
    exists s1. split; [done|].
    rewrite flat_map_app. cbn [flat_map]. rewrite app_nil_r.
    by apply (walk_post_trans _ _ _ _ _ _ _ Hpost Hpost1).
Qed.

Lemma walk_post_last g sections index sections' :
  walk_post g sections (length sections - 1) sections' →
  walk_post g sections index sections'.
Proof.
  intros [Hd Hf]. split; [done|]. intros Hg Hi.
  replace index with (length sections - 1)%nat by lia. apply Hf; [done|lia].
Qed.

(** The walk lemma: a round of the loop on any token returns; it moves the
    index by one at a heading and not otherwise, and appends the sections of
    the headings it meets. *)
Lemma stripToken_spec token : token_spec sanitizeHtml token.
Proof.
  revert token. apply (Token_nested_ind (token_spec sanitizeHtml)); intros;
    intros header sections index Hi; simpl stripToken;
    cbn [mbind result_bind is_heading heading_depths].
  all: try (eexists; split; [reflexivity|apply walk_post_refl]).
  all: try match goal with
       | Hi : (?i < length ?s)%nat
         |- context [append_at ?s ?i ?h ?t ≫= _] =>
         destruct (append_at_spec s i h t Hi) as (s' & -> & Hpost);
         exists s'; split; [reflexivity|exact Hpost]
       end.
  all: try match goal with
       | H : Forall (token_spec sanitizeHtml) ?ts, Hi : (?i < length ?s)%nat
         |- context [enter (stripToken sanitizeHtml ?h) ?ts ?s] =>
         let Hne := fresh in
         assert (Hne : s ≠ []) by (intros ->; cbn in Hi; lia);
         destruct (tokens_of_token ts H h s Hne) as (s1 & Hrun & Hpost);
         unfold stripTokens in Hrun; rewrite Hrun;
         cbn [mbind result_bind];
         apply (walk_post_last _ _ i) in Hpost
       end.
  all: try (exists s1; split; [reflexivity|exact Hpost]).
  - (* code *)
    case_bool_decide.
    + eexists; split; [reflexivity|apply walk_post_refl].
    + destruct (append_at_spec sections index header text Hi)
        as (s' & -> & Hpost).
      exists s'; split; [reflexivity|exact Hpost].
  - (* heading *)
    destruct (finalize_at_spec sections index Hi) as (sec & Hsec & ->).
    cbn [mbind result_bind].
    match goal with
    | H : Forall (token_spec sanitizeHtml) ?ts |- context [enter _ ?ts ?s] =>
      destruct (tokens_of_token ts H true s) as (s1 & Hrun & [Hd _]);
        [by destruct (<[index := _]> sections)|]
    end.
    unfold stripTokens in Hrun. rewrite Hrun. cbn [mbind result_bind].
    exists s1. split; [reflexivity|]. split; [|done].
    rewrite Hd, fmap_app, (depth_insert _ _ sec) by done.
    by rewrite <- app_assoc.
  - (* table *)
    match goal with
    | Hc : Forall (Forall (token_spec sanitizeHtml)) ?cells,
      Hr : Forall (Forall (Forall (token_spec sanitizeHtml))) ?rows |- _ =>
      assert (Hcells : Forall (tokens_spec sanitizeHtml) cells)
        by (eapply Forall_impl; [exact Hc|apply tokens_of_token]);
      assert (Hrows : Forall (Forall (tokens_spec sanitizeHtml)) rows)
        by (eapply Forall_impl; [exact Hr|]; intros row Hrow;
            eapply Forall_impl; [exact Hrow|apply tokens_of_token])
    end.
    destruct (strip_cells_spec cells header sections index Hcells Hi)
      as (s1 & Hrun1 & Hpost1).
    destruct (strip_rows_spec rows header s1 index Hrows)
      as (s2 & Hrun2 & Hpost2).
    { by apply (walk_post_index_lt _ _ _ _ Hi Hpost1). }
    unfold strip_cells, stripTokens in Hrun1, Hrun2.
    rewrite Hrun1. cbn [mbind result_bind]. rewrite Hrun2.
    exists s2. split; [reflexivity|].
    by apply (walk_post_trans _ _ _ _ _ _ _ Hpost1 Hpost2).
  - (* list_item *)
    destruct (append_at_spec s1 index header nl) as (s2 & -> & Hpost2).
    { by apply (walk_post_index_lt _ _ _ _ Hi Hpost). }
    exists s2. split; [reflexivity|].
    rewrite <- (app_nil_r (flat_map _ _)).
    by apply (walk_post_trans _ _ _ _ _ _ _ Hpost Hpost2).
Qed.

Lemma stripTokens_spec tokens : tokens_spec sanitizeHtml tokens.
Proof. apply tokens_of_token, Forall_forall. intros t _. apply stripToken_spec. Qed.

End Walk.

(** ** Sections *)

Lemma finalize_final_text s : final_text (finalize s).
Proof. split; [apply finalize_trimmed|apply finalize_no_newline_run3]. Qed.

Section Sections.
Variable emojify : jsstring → jsstring.
Variable sanitizeHtml : jsstring → SanitizeOptions → jsstring.
Variable lexer : jsstring → MarkedOptions → list Token.

Lemma stripSplitBySections_spec markdown opts :
  ∃ sections,
    stripSplitBySections emojify sanitizeHtml lexer markdown opts = Ok sections
    ∧ MarkdownSections.depth <$> sections
      = 0%nat :: flat_map heading_depths (lexed emojify lexer markdown opts).
Proof.
  unfold stripSplitBySections. fold (lexed emojify lexer markdown opts).
  destruct (stripTokens_spec sanitizeHtml (lexed emojify lexer markdown opts) false
              [MarkdownSections.Make [] 0 []]) as (sections & Hrun & Hd & _);
    [done|].
  exists sections. split; [done|]. by rewrite Hd.
Qed.

(** C1: for every Markdown input [stripSplitBySections] returns one section
    more than the walk meets heading tokens; the first section has depth 0
    and the sections after it, in order, have the depths of the heading
    tokens in the order of the document. *)
Theorem stripSplitBySections_sections markdown opts :
  ∃ sections,
    stripSplitBySections emojify sanitizeHtml lexer markdown opts = Ok sections
    ∧ length sections
      = S (length (flat_map heading_depths (lexed emojify lexer markdown opts)))
    ∧ MarkdownSections.depth <$> sections
      = 0%nat :: flat_map heading_depths (lexed emojify lexer markdown opts).
Proof.
  destruct (stripSplitBySections_spec markdown opts) as (sections & Hrun & Hd).
  exists sections. split; [done|]. split; [|done].
  apply (f_equal length) in Hd. by rewrite length_fmap in Hd.
Qed.

Example strip_title_scenario :
  strip (λ s, s) (λ s _, s) title_lexer [] no_options
  = Ok (js "Title" ++ nl ++ nl ++ js "Some bold text." ++ nl)
  ∧ stripSplitBySections (λ s, s) (λ s _, s) title_lexer [] no_options
    = Ok [ MarkdownSections.Make [] 0 [];
           MarkdownSections.Make (js "Title") 1 (js "Some bold text.") ].
Proof. split; vm_compute; reflexivity. Qed.

(** C7: for every Markdown input [strip] returns a string that ends with a
    newline and contains no run of three or more consecutive newlines. *)
Theorem strip_newlines markdown opts :
  ∃ out,
    strip emojify sanitizeHtml lexer markdown opts = Ok out
    ∧ last out = Some LF
    ∧ no_newline_run3 out.
Proof.
  unfold strip.
  destruct (stripSplitBySections_spec markdown opts) as (sections & -> & _).
  cbn [mbind result_bind]. eexists. split; [reflexivity|]. split.
  - apply last_snoc.
  - apply finalize_newline_no_run3.
Qed.

End Sections.

(** ** Finalized sections *)

Section Finalized.
Variable emojify : jsstring → jsstring.
Variable sanitizeHtml : jsstring → SanitizeOptions → jsstring.
Variable lexer : jsstring → MarkedOptions → list Token.

Lemma stripToken_heading header depth tokens sections index :
  stripToken sanitizeHtml header (T_heading depth tokens) (sections, index)
  = (sections ← finalize_at sections index;
     sections ←
       stripTokens sanitizeHtml tokens
         (sections ++ [MarkdownSections.Make [] depth []]) true;
     Ok (sections, S index)).
Proof.
  simpl stripToken. destruct (finalize_at sections index); [|done].
  cbn [mbind result_bind]. unfold stripTokens.
  by destruct (enter _ _ _).
Qed.

Lemma top_step header token sections index :
  match token with
  | T_heading _ tokens => flat_map heading_depths tokens = []
  | _ => heading_depths token = []
  end →
  top_invariant (sections, index) →
  ∃ st, stripToken sanitizeHtml header token (sections, index) = Ok st
        ∧ top_invariant st.
Proof.
  intros Htop [Hlast Hfin]. cbn [fst snd] in Hlast, Hfin.
  assert (Hi : (index < length sections)%nat) by lia.
  destruct (is_heading token) eqn:Hh.
  - destruct token as [| |depth tokens| | | | | | | | | | | | | | | | |];
      try discriminate Hh.
    rewrite stripToken_heading.
    destruct (finalize_at_spec sections index Hi) as (sec & Hsec & ->).
    cbn [mbind result_bind].
    set (sec' := MarkdownSections.Make _ _ _).
    destruct (stripTokens_spec sanitizeHtml tokens true
                (<[index := sec']> sections ++ [MarkdownSections.Make [] depth []]))
      as (s1 & -> & Hpost); [by destruct (<[index := sec']> sections)|].
    cbn [mbind result_bind]. eexists. split; [reflexivity|].
    rewrite Htop in Hpost. pose proof (walk_post_length _ _ _ _ Hpost) as Hlen.
    destruct Hpost as [_ Hframe].
    rewrite length_app, length_insert in Hlen, Hframe. cbn [length] in Hlen, Hframe.
    replace (length sections + 1 - 1)%nat with (S index) in Hframe by lia.
    split; cbn [fst snd]; [lia|].
    rewrite Hframe by (done || lia).
    rewrite take_app_length' by (rewrite length_insert; lia).
    apply Forall_lookup. intros j x Hj.
    destruct (decide (j = index)) as [->|Hne].
    + rewrite list_lookup_insert_eq in Hj by done. injection Hj as <-.
      split; apply finalize_final_text.
    + rewrite list_lookup_insert_ne in Hj by done.
      pose proof (lookup_lt_Some _ _ _ Hj) as Hlt.
      rewrite Forall_lookup in Hfin. apply (Hfin j).
      rewrite lookup_take_lt by lia. done.
  - assert (Hg : heading_depths token = []) by (by destruct token).
    destruct (stripToken_spec sanitizeHtml token header sections index Hi)
      as (s1 & Hrun & Hpost).
    rewrite Hh in Hrun. rewrite Hg in Hpost.
    pose proof (walk_post_length _ _ _ _ Hpost) as Hlen. cbn in Hlen.
    destruct Hpost as [_ Hframe].
    exists (s1, index). split; [done|]. split; cbn [fst snd]; [lia|].
    by rewrite Hframe.
Qed.

Lemma top_walk tokens :
  headings_at_top tokens →
  ∃ sections,
    stripTokens sanitizeHtml tokens [MarkdownSections.Make [] 0 []] false
    = Ok sections
    ∧ Forall finalized (take (length sections - 1) sections).
Proof.
  intros Htop. unfold stripTokens, enter. cbn [length Nat.sub].
  destruct (for_of_invariant (stripToken sanitizeHtml false)
              (λ _ st, top_invariant st) tokens
              ([MarkdownSections.Make [] 0 []], 0%nat))
    as ([sections index] & -> & Hlast & Hfin).
  - split; [done|]. cbn. constructor.
  - intros _ token [s i] Hin Hinv. unfold headings_at_top in Htop.
    rewrite Forall_forall in Htop. by apply top_step; [apply Htop|].
  - cbn [fst snd] in Hlast, Hfin. cbn [mbind result_bind].
    exists sections. split; [done|].
    by replace (length sections - 1)%nat with index by lia.
Qed.

(** C2, as amended: finalizing a text trims it and leaves a single newline
    for each run of three or more newlines, so that a finalized text is
    trimmed and has no run of three newlines; and when every heading of the
    document is at the top level of the token tree, every section that
    [stripSplitBySections] returns, the last one apart, is finalized. *)
Theorem sections_finalized markdown opts :
  headings_at_top (lexed emojify lexer markdown opts) →
  (∀ s, final_text (finalize s))
  ∧ (∀ n s, (3 ≤ n)%nat → head s ≠ Some LF →
       replaceAll_string NEWLINES3 nl (replicate n LF ++ s)
       = LF :: replaceAll_string NEWLINES3 nl s)
  ∧ ∃ sections,
      stripSplitBySections emojify sanitizeHtml lexer markdown opts
      = Ok sections
      ∧ ∀ i section, (S i < length sections)%nat →
          sections !! i = Some section → finalized section.
Proof.
  intros Htop. split; [apply finalize_final_text|]. split.
  - intros n s Hn Hs. fold (collapse (replicate n LF ++ s)).
    rewrite collapse_eq.
    assert (Hrun : nlrun (replicate n LF ++ s) = n).
    { clear Hn. induction n as [|n IH]; cbn.
      - destruct s as [|c s]; [done|]. cbn.
        destruct (N.eqb_spec LF c) as [<-|]; done.
      - by rewrite N.eqb_refl, IH. }
    rewrite Hrun, (proj2 (Nat.leb_le _ _)) by done.
    by rewrite drop_app_length' by (by rewrite length_replicate).
  - destruct (top_walk _ Htop) as (sections & Hrun & Hfin).
    exists sections. split; [exact Hrun|].
    intros i section Hi Hsec. rewrite Forall_lookup in Hfin.
    apply (Hfin i). rewrite lookup_take_lt by lia. done.
Qed.

End Finalized.

Lemma sections_finalized_witness :
  headings_at_top (lexed (λ s, s) sample_lexer (js "# Title") no_options)
  ∧ ∃ sections,
      stripSplitBySections (λ s, s) (λ s _, s) sample_lexer (js "# Title")
        no_options
      = Ok sections
      ∧ ∀ i section, (S i < length sections)%nat →
          sections !! i = Some section → finalized section.
Proof.
  assert (Htop : headings_at_top
                   (lexed (λ s, s) sample_lexer (js "# Title") no_options)).
  { unfold lexed, sample_lexer. repeat constructor. }
  split; [exact Htop|].
  exact (proj2 (proj2 (sections_finalized (λ s, s) (λ s _, s) sample_lexer
                         (js "# Title") no_options Htop))).
Defined.

(** C2, as stated, fails: the last section is returned as the walk left it,
    here with four newlines in a row; finalizing leaves one newline, not a
    blank line, for a run of newlines; and below a heading that is not at the
    top level a section before the last is returned as the walk left it, here
    with two newlines at its end. *)
Lemma last_section_not_finalized :
  ¬ (∀ emojify sanitizeHtml lexer markdown opts sections,
       stripSplitBySections emojify sanitizeHtml lexer markdown opts
       = Ok sections →
       Forall finalized sections)
  ∧ finalize (js "a" ++ nl ++ nl ++ nl ++ js "b") ≠ js "a" ++ nl ++ nl ++ js "b"
  ∧ ¬ (∀ emojify sanitizeHtml lexer markdown opts sections i section,
         stripSplitBySections emojify sanitizeHtml lexer markdown opts
         = Ok sections →
         (S i < length sections)%nat →
         sections !! i = Some section →
         finalized section).
Proof.
  split; [|split; [vm_compute; discriminate|]].
  - intros H.
    specialize (H (λ s, s) (λ s _, s) code_lexer [] no_options
                  [MarkdownSections.Make [] 0
                     (js "a" ++ nl ++ nl ++ nl ++ nl ++ js "b")]).
    specialize (H ltac:(vm_compute; reflexivity)).
    apply Forall_inv in H as [_ [_ Hrun]].
    apply (Hrun (js "a") (nl ++ js "b")). reflexivity.
  - intros H.
    specialize (H (λ s, s) (λ s _, s) quote_lexer [] no_options
                  [ MarkdownSections.Make [] 0 [];
                    MarkdownSections.Make (js "T") 1
                      (js "<div>x</div>" ++ nl ++ nl);
                    MarkdownSections.Make (js "H2") 2 [] ]
                  1%nat
                  (MarkdownSections.Make (js "T") 1
                     (js "<div>x</div>" ++ nl ++ nl))).
    specialize (H ltac:(vm_compute; reflexivity) ltac:(cbn; lia) eq_refl).
    destruct H as [_ [Htrim _]]. vm_compute in Htrim. discriminate Htrim.
Qed.

(** ** The math preprocessor *)

Lemma mapM_result_cons {A B} (h : A → result B) (x : A) (l : list A) :
  mapM h (x :: l) = (y ← h x; k ← mapM h l; Ok (y :: k)).
Proof. reflexivity. Qed.

Lemma replaceAll_total r f g s :
  (∀ m p1, f m p1 = Ok (g m p1)) →
  replaceAll r f s = Ok (replace_with r g s).
Proof.
  intros Hf. unfold replaceAll, replace_with.
  generalize (split_matches r s). intros l.
  assert (H : mapM (λ p, match p with
                         | Lit t => Ok t
                         | Hit m p1 => f m p1
                         end) l
              = Ok ((λ p, match p with
                          | Lit t => t
                          | Hit m p1 => g m p1
                          end) <$> l)).
  { induction l as [|p l IH]; [done|]. rewrite mapM_result_cons, IH.
    destruct p as [t|m p1]; [|rewrite Hf]; reflexivity. }
  rewrite H. done.
Qed.

Section MathifyPasses.
Variable katex_renderToString : jsstring → bool → result jsstring.

(** Either pass returns, whatever the typesetter does, and replaces each of
    its matches on its own. *)
Lemma mathify_passes markdown :
  mathify katex_renderToString markdown
  = Ok (replace_with INLINE_MATH_REGEXP (inline_replacement katex_renderToString)
          (replace_with BLOCK_MATH_REGEXP (block_replacement katex_renderToString) markdown)).
Proof.
  unfold mathify.
  rewrite (replaceAll_total _ _ (block_replacement katex_renderToString)).
  2:{ intros m [p|]; unfold mathify_block, block_replacement; [|done].
      by destruct (katex_renderToString (trim p) true). }
  cbn [mbind result_bind].
  apply replaceAll_total.
  intros m [p|]; unfold mathify_inline, inline_replacement; [|done].
  by destruct (katex_renderToString p false).
Qed.

(** A pass in which every typesetting throws leaves its input as it is. *)
Lemma replace_with_failures r g s :
  (∀ m p1, g m p1 = m) → replace_with r g s = s.
Proof.
  intros Hg. unfold replace_with, split_matches.
  transitivity (concat (piece_text <$> split_loop (S (length s)) r s));
    [|apply split_loop_lossless].
  f_equal. apply list_fmap_ext. intros _ [t|m p1] _; cbn; [done|apply Hg].
Qed.

(** C9, at the input [$$ \bad $$]: the input is one block match, of the
    expression [\bad]; when the typesetter throws on it, the block pass
    leaves the match as it is, but the inline pass then matches the closing
    [ $$] as an empty inline expression, and when the typesetter accepts the
    empty expression the closing delimiter is replaced. *)
Theorem mathify_failed_block_rewritten (e : exn) (markup : jsstring) :
  katex_renderToString (js "\bad") true = Throw e →
  katex_renderToString [] false = Ok markup →
  split_matches BLOCK_MATH_REGEXP (js "$$ \bad $$")
  = [Lit []; Hit (js "$$ \bad $$") (Some (js "\bad")); Lit []]
  ∧ mathify katex_renderToString (js "$$ \bad $$")
    = Ok (js "$$ \bad" ++ js " " ++ markup).
Proof.
  intros Hbad Hempty. split; [vm_compute; reflexivity|].
  rewrite mathify_passes.
  assert (Hblock : replace_with BLOCK_MATH_REGEXP (block_replacement katex_renderToString)
                     (js "$$ \bad $$") = js "$$ \bad $$").
  { unfold replace_with.
    replace (split_matches BLOCK_MATH_REGEXP (js "$$ \bad $$"))
      with [Lit []; Hit (js "$$ \bad $$") (Some (js "\bad")); Lit []]
      by (vm_compute; reflexivity).
    cbn [fmap list_fmap concat block_replacement].
    replace (trim (js "\bad")) with (js "\bad") by (vm_compute; reflexivity).
    rewrite Hbad. reflexivity. }
  rewrite Hblock. unfold replace_with.
  replace (split_matches INLINE_MATH_REGEXP (js "$$ \bad $$"))
    with [Lit (js "$$ \bad"); Hit (js " $$") (Some []); Lit []]
    by (vm_compute; reflexivity).
  cbn [fmap list_fmap concat inline_replacement]. rewrite Hempty.
  by rewrite app_nil_r.
Qed.

End MathifyPasses.

Lemma mathify_failed_block_rewritten_witness :
  mathify sample_katex (js "$$ \bad $$")
  = Ok (js "$$ \bad <span></span>").
Proof.
  exact (proj2 (mathify_failed_block_rewritten sample_katex (Thrown 1)
                  (js "<span></span>") eq_refl eq_refl)).
Defined.

(** * Further properties *)

(** ** The math preprocessor, on any input *)

Section MathifyTotal.
Variable katex_renderToString : jsstring → bool → result jsstring.

(** X1: [mathify] returns for every input, whatever the typesetter throws. *)
Theorem mathify_never_throws (markdown : jsstring) :
  ∃ out, mathify katex_renderToString markdown = Ok out.
Proof. eexists. apply mathify_passes. Qed.

(** X2: when the typesetter throws on every expression, [mathify] returns
    its input unchanged. *)
Theorem mathify_all_fail (markdown : jsstring) :
  (∀ tex displayMode, ∃ e, katex_renderToString tex displayMode = Throw e) →
  mathify katex_renderToString markdown = Ok markdown.
Proof.
  intros Hfail. rewrite mathify_passes.
  rewrite (replace_with_failures BLOCK_MATH_REGEXP).
  2:{ intros m [p|]; cbn; [|done]. by destruct (Hfail (trim p) true) as [e ->]. }
  rewrite (replace_with_failures INLINE_MATH_REGEXP); [done|].
  intros m [p|]; cbn; [|done]. by destruct (Hfail p false) as [e ->].
Qed.

End MathifyTotal.

Lemma mathify_all_fail_witness :
  mathify failing_katex (js "so $x$ and $$ y $$")
  = Ok (js "so $x$ and $$ y $$").
Proof.
  apply (mathify_all_fail failing_katex). intros tex d. by exists (Thrown 1).
Defined.

(** ** Text without a dollar sign *)


Lemma search_from_none r before s :
  (∀ t, t `suffix_of` s → match_here r t = None) →
  search_from r before s = None.
Proof.
  revert before. induction s as [|x s IH]; intros before H;
    rewrite search_from_unfold, (H _ (reflexivity _)); [done|].
  apply IH. intros t Ht. apply H. by apply suffix_cons_r.
Qed.

Lemma match_here_block_dollar s :
  head s ≠ Some DOLLAR → match_here BLOCK_MATH_REGEXP s = None.
Proof.
  destruct s as [|x s]; [reflexivity|]. intros Hx. unfold match_here.
  change BLOCK_MATH_REGEXP
    with (RSeq (RSeq (RLit DOLLAR) (RSeq (RLit DOLLAR) REmpty))
            (RSeq RSpace
               (RSeq (RGroup (RPlus false RDot))
                  (RSeq RSpace (RStr (js "$$")))))).
  cbn [rmatch RLit].
  destruct (N.eqb_spec DOLLAR x) as [<-|]; [|done].
  by destruct Hx.
Qed.

Lemma match_here_inline_dollar s :
  DOLLAR ∉ s → match_here INLINE_MATH_REGEXP s = None.
Proof.
  intros Hs. unfold match_here.
  change INLINE_MATH_REGEXP
    with (RSeq RSpace
            (RSeq (RLit DOLLAR)
               (RSeq (RGroup (RSeq (RLook RNonSpace)
                                (RSeq (RStar false RDot) (RLook RNonSpace))))
                  (RLit DOLLAR)))).
  cbn [rmatch RSpace RLit].
  destruct s as [|x [|y s]]; [done|by destruct (isWhiteSpace x)|].
  destruct (isWhiteSpace x); [|done].
  destruct (N.eqb_spec DOLLAR y) as [<-|]; [|done].
  destruct Hs. right. left.
Qed.

Lemma not_elem_of_suffix (x : N) (s t : jsstring) :
  x ∉ s → t `suffix_of` s → x ∉ t.
Proof. intros Hs [pre ->] Ht. apply Hs, elem_of_app. by right. Qed.

Lemma split_matches_none r s : search r s = None → split_matches r s = [Lit s].
Proof. intros H. unfold split_matches. by rewrite split_loop_S, H. Qed.

Lemma search_block_no_dollar s : DOLLAR ∉ s → search BLOCK_MATH_REGEXP s = None.
Proof.
  intros Hs. apply search_from_none. intros t Ht.
  apply match_here_block_dollar. intros Hh.
  apply (not_elem_of_suffix _ _ _ Hs Ht). destruct t as [|c t]; [done|].
  injection Hh as ->. left.
Qed.

Lemma search_inline_no_dollar s : DOLLAR ∉ s → search INLINE_MATH_REGEXP s = None.
Proof.
  intros Hs. apply search_from_none. intros t Ht.
  apply match_here_inline_dollar. by apply (not_elem_of_suffix _ s).
Qed.

(** X3: a text with no dollar sign has no math: [mathify] returns it
    unchanged and does not consult the typesetter. *)
Theorem mathify_no_dollar
    (katex_renderToString : jsstring → bool → result jsstring)
    (markdown : jsstring) :
  DOLLAR ∉ markdown →
  mathify katex_renderToString markdown = Ok markdown.
Proof.
  intros Hs. rewrite mathify_passes. unfold replace_with.
  rewrite (split_matches_none _ _ (search_block_no_dollar _ Hs)).
  cbn [fmap list_fmap concat]. rewrite app_nil_r.
  rewrite (split_matches_none _ _ (search_inline_no_dollar _ Hs)).
  cbn [fmap list_fmap concat]. by rewrite app_nil_r.
Qed.

Lemma mathify_no_dollar_witness :
  mathify sample_katex (js "plain \text") = Ok (js "plain \text").
Proof.
  apply mathify_no_dollar. intros H.
  repeat (apply elem_of_cons in H as [H|H]; [discriminate H|]).
  by apply elem_of_nil in H.
Defined.

(** X4: a text with no dollar sign reaches the lexer of
    [stripSplitBySections] as [emojify] left it. *)
Theorem lexed_no_dollar (emojify : jsstring → jsstring)
    (lexer : jsstring → MarkedOptions → list Token)
    (markdown : jsstring) (opts : RenderOptions.t) :
  DOLLAR ∉ emojify markdown →
  lexed emojify lexer markdown opts = lexer (emojify markdown) (getOpts opts).
Proof.
  intros Hs. unfold lexed, replaceAll_string.
  rewrite (split_matches_none _ _ (search_block_no_dollar _ Hs)).
  cbn [fmap list_fmap concat]. rewrite app_nil_r.
  rewrite (split_matches_none _ _ (search_inline_no_dollar _ Hs)).
  cbn [fmap list_fmap concat]. by rewrite app_nil_r.
Qed.

Lemma lexed_no_dollar_witness :
  lexed (λ s, s) sample_lexer (js "# Title") no_options
  = sample_lexer (js "# Title") (getOpts no_options).
Proof.
  apply (lexed_no_dollar (λ s, s) sample_lexer). intros H.
  repeat (apply elem_of_cons in H as [H|H]; [discriminate H|]).
  by apply elem_of_nil in H.
Defined.

(** ** The link rule and the media transform, on any input *)

Section Resolution.
Variable URL_href : jsstring → jsstring → result jsstring.



End Resolution.

(** ** The code rule *)

Lemma split_head (sep : N) (s : jsstring) :
  ∃ p ps, split sep s = p :: ps
          ∧ p `prefix_of` s
          ∧ (sep ∉ p)
          ∧ (ps = [] → p = s).
Proof.
  induction s as [|c s (p & ps & IH & Hpre & Hsep & Hall)]; cbn [split].
  - exists [], []. split; [done|]. split; [done|].
    split; [apply not_elem_of_nil|done].
  - destruct (N.eqb_spec c sep) as [->|Hc].
    + exists [], (split sep s). split; [done|]. split; [apply prefix_nil|].
      split; [apply not_elem_of_nil|]. by rewrite IH.
    + rewrite IH. exists (c :: p), ps. split; [done|].
      split; [by apply prefix_cons|]. split.
      * intros [?|?]%elem_of_cons; [congruence|done].
      * intros Hps. by rewrite (Hall Hps).
Qed.

Section CodeRule.
Variable toLocaleLowerCase : jsstring → jsstring.
Variable katex_renderToString : jsstring → bool → result jsstring.
Variable Grammar : Type.
Variable Prism_languages : jsstring → option Grammar.
Variable Prism_highlight : jsstring → Grammar → option jsstring → jsstring.
Variable he_encode : jsstring → jsstring.
Variable minify : jsstring → jsstring.

Lemma code_language_returns (language : option jsstring) :
  ∃ lang title,
    Renderer.code_language toLocaleLowerCase language = Ok (lang, title).
Proof.
  unfold Renderer.code_language. destruct language as [l|]; [|by eexists _, _].
  destruct (search TITLE_REGEXP l) as [m|].
  - destruct (split_head SPACE l) as (p & ps & -> & _). cbn [head].
    destruct (split_head COMMA p) as (seg & segs & -> & _). by eexists _, _.
  - destruct (split_head COMMA l) as (seg & segs & -> & _). by eexists _, _.
Qed.



End CodeRule.

(** ** render and its options *)

Section RunWithoutMath.
Variable toLocaleLowerCase : jsstring → jsstring.
Variable Grammar : Type.
Variable Prism_languages : jsstring → option Grammar.
Variable Prism_highlight : jsstring → Grammar → option jsstring → jsstring.
Variable he_encode : jsstring → jsstring.
Variable minify : jsstring → jsstring.
Variable GitHubSlugger_slug : list jsstring → jsstring → jsstring.
Variable contentType_extname : jsstring → option jsstring.

(** An instance that does not allow math never calls the typesetter. *)
Lemma code_without_math
    (katex katex' : jsstring → bool → result jsstring)
    (this : Renderer.t) (code : jsstring) (language : option jsstring) :
  Renderer.allowMath this = false →
  Renderer.code toLocaleLowerCase katex Grammar Prism_languages
    Prism_highlight he_encode minify this code language
  = Renderer.code toLocaleLowerCase katex' Grammar Prism_languages
      Prism_highlight he_encode minify this code language
  ∧ ∃ out this',
      Renderer.code toLocaleLowerCase katex Grammar Prism_languages
        Prism_highlight he_encode minify this code language
      = Ok (out, this').
Proof.
  intros Hm. unfold Renderer.code.
  destruct (code_language_returns toLocaleLowerCase language)
    as (lang & title & ->).
  cbn [mbind result_bind]. rewrite Hm, andb_false_r. split; [done|].
  destruct lang as [l|];
    [destruct (truthy l); [destruct (Prism_languages l)|]|];
    destruct (Renderer.mermaidEnabled this && _); by eexists _, _.
Qed.

Lemma run_without_math
    (katex katex' : jsstring → bool → result jsstring)
    (p : Rendering) (this : Renderer.t) :
  Renderer.allowMath this = false →
  run toLocaleLowerCase katex Grammar Prism_languages Prism_highlight
    he_encode minify GitHubSlugger_slug contentType_extname p this
  = run toLocaleLowerCase katex' Grammar Prism_languages Prism_highlight
      he_encode minify GitHubSlugger_slug contentType_extname p this
  ∧ ∃ html,
      (run toLocaleLowerCase katex Grammar Prism_languages Prism_highlight
         he_encode minify GitHubSlugger_slug contentType_extname p this).1
      = Ok html.
Proof.
  revert this.
  induction p as [html|text level raw k IH|src title alt k IH
                  |code language k IH]; intros this Hm; cbn [run].
  - split; [done|by eexists].
  - pose proof (heading_frame GitHubSlugger_slug this text level raw)
      as (Hf & _).
    destruct (Renderer.heading _ _ _ _ _) as [out this1]. cbn [snd] in Hf.
    apply IH. congruence.
  - pose proof (image_frame contentType_extname this src title alt)
      as (Hf & _).
    destruct (Renderer.image _ _ _ _ _) as [out this1]. cbn [snd] in Hf.
    apply IH. congruence.
  - destruct (code_without_math katex katex' this code language Hm)
      as (<- & out & this1 & Hc).
    rewrite Hc. apply code_frame in Hc as (Hf & _). apply IH. congruence.
Qed.

End RunWithoutMath.

Section RenderOptionsUse.
Variable emojify : jsstring → jsstring.
Variable URL_href : jsstring → jsstring → result jsstring.
Variable toLocaleLowerCase : jsstring → jsstring.
Variable Grammar : Type.
Variable Prism_languages : jsstring → option Grammar.
Variable Prism_highlight : jsstring → Grammar → option jsstring → jsstring.
Variable he_encode : jsstring → jsstring.
Variable minify : jsstring → jsstring.
Variable GitHubSlugger_slug : list jsstring → jsstring → jsstring.
Variable contentType_extname : jsstring → option jsstring.
Variable marked_parse : bool → bool → jsstring → MarkedOptions → Rendering.
Variable sanitize_defaults_allowedTags : list jsstring.
Variable sanitize_defaults_allowedAttributes :
  gmap jsstring (list AllowedAttribute).
Variable KATEX_CLASSES : list jsstring.
Variable minified_mermaid_bootstrap : jsstring.

(** X9: the media base defaults to the base: a call of render without
    [mediaBaseUrl] returns what the call with [mediaBaseUrl] set to
    [baseUrl] returns, and leaves the same options object. *)
Theorem render_mediaBaseUrl_default
    (katex_renderToString : jsstring → bool → result jsstring)
    (sanitizeHtml : jsstring → SanitizeOptions → jsstring)
    (markdown : jsstring) (opts : RenderOptions.t) :
  RenderOptions.mediaBaseUrl opts = None →
  render emojify katex_renderToString URL_href toLocaleLowerCase Grammar
    Prism_languages Prism_highlight he_encode minify GitHubSlugger_slug
    contentType_extname marked_parse sanitizeHtml sanitize_defaults_allowedTags
    sanitize_defaults_allowedAttributes KATEX_CLASSES
    minified_mermaid_bootstrap markdown opts
  = render emojify katex_renderToString URL_href toLocaleLowerCase Grammar
      Prism_languages Prism_highlight he_encode minify GitHubSlugger_slug
      contentType_extname marked_parse sanitizeHtml sanitize_defaults_allowedTags
      sanitize_defaults_allowedAttributes KATEX_CLASSES
      minified_mermaid_bootstrap markdown 
        (set_mediaBaseUrl opts (RenderOptions.baseUrl opts)).
Proof.
  intros Hm. unfold render. rewrite Hm.
  destruct (RenderOptions.baseUrl opts) as [base|] eqn:Hb;
    cbn [set_mediaBaseUrl RenderOptions.mediaBaseUrl RenderOptions.baseUrl];
    [done|]. by rewrite Hb.
Qed.

(** X10: with sanitization disabled the sanitizer is not consulted: the
    result is the same whatever the sanitizer would return. *)
Theorem render_unsanitized
    (katex_renderToString : jsstring → bool → result jsstring)
    (sanitizeHtml sanitizeHtml' : jsstring → SanitizeOptions → jsstring)
    (markdown : jsstring) (opts : RenderOptions.t) :
  RenderOptions.disableHtmlSanitization opts = Some true →
  render emojify katex_renderToString URL_href toLocaleLowerCase Grammar
    Prism_languages Prism_highlight he_encode minify GitHubSlugger_slug
    contentType_extname marked_parse sanitizeHtml sanitize_defaults_allowedTags
    sanitize_defaults_allowedAttributes KATEX_CLASSES
    minified_mermaid_bootstrap markdown opts
  = render emojify katex_renderToString URL_href toLocaleLowerCase Grammar
      Prism_languages Prism_highlight he_encode minify GitHubSlugger_slug
      contentType_extname marked_parse sanitizeHtml' sanitize_defaults_allowedTags
      sanitize_defaults_allowedAttributes KATEX_CLASSES
      minified_mermaid_bootstrap markdown opts.
Proof.
  intros Hd. unfold render.
  set (opts' := match RenderOptions.mediaBaseUrl opts with
                | Some _ => opts
                | None => set_mediaBaseUrl opts (RenderOptions.baseUrl opts)
                end).
  assert (Hd' : RenderOptions.disableHtmlSanitization opts' = Some true).
  { unfold opts'. by destruct (RenderOptions.mediaBaseUrl opts). }
  unfold render_body. rewrite Hd'. cbn [flag nullish_else].
  destruct (if nullish_else (RenderOptions.allowMath opts') false
            then _ else _); [|done].
  by destruct (run _ _ _ _ _ _ _ _ _ _ _).
Qed.


End RenderOptionsUse.

Lemma render_mediaBaseUrl_default_witness :
  let opts :=
    RenderOptions.Make (Some (js "https://example.com/")) None None None None
      None None None None None None None None None None None None in
  render (λ s, s) sample_katex URL_href_stub (λ s, s) unit (λ _, None)
    (λ s _ _, s) (λ s, s) (λ s, s) (λ _ s, s) (λ _, None) sample_parse
    (λ s _, s) [] ∅ [] [] (js "text") opts
  = render (λ s, s) sample_katex URL_href_stub (λ s, s) unit (λ _, None)
      (λ s _ _, s) (λ s, s) (λ s, s) (λ _ s, s) (λ _, None) sample_parse
      (λ s _, s) [] ∅ [] [] (js "text")
      (set_mediaBaseUrl opts (Some (js "https://example.com/"))).
Proof.
  intros opts.
  apply (render_mediaBaseUrl_default (λ s, s) URL_href_stub (λ s, s) unit
           (λ _, None) (λ s _ _, s) (λ s, s) (λ s, s) (λ _ s, s) (λ _, None)
           sample_parse [] ∅ [] [] sample_katex (λ s _, s) (js "text") opts).
  reflexivity.
Defined.

Lemma render_unsanitized_witness :
  let opts :=
    RenderOptions.Make None None None None None (Some true) None None None
      None None None None None None None None in
  render (λ s, s) sample_katex URL_href_stub (λ s, s) unit (λ _, None)
    (λ s _ _, s) (λ s, s) (λ s, s) (λ _ s, s) (λ _, None) sample_parse
    (λ s _, s) [] ∅ [] [] (js "<b>text</b>") opts
  = render (λ s, s) sample_katex URL_href_stub (λ s, s) unit (λ _, None)
      (λ s _ _, s) (λ s, s) (λ s, s) (λ _ s, s) (λ _, None) sample_parse
      (λ _ _, []) [] ∅ [] [] (js "<b>text</b>") opts.
Proof.
  intros opts.
  apply (render_unsanitized (λ s, s) URL_href_stub (λ s, s) unit
           (λ _, None) (λ s _ _, s) (λ s, s) (λ s, s) (λ _ s, s) (λ _, None)
           sample_parse [] ∅ [] [] sample_katex (λ s _, s) (λ _ _, [])
           (js "<b>text</b>") opts).
  reflexivity.
Defined.


(** ** The tags that options enable *)

Section SanitizerTags.
Variable URL_href : jsstring → jsstring → result jsstring.
Variable sanitize_defaults_allowedTags : list jsstring.
Variable sanitize_defaults_allowedAttributes :
  gmap jsstring (list AllowedAttribute).
Variable KATEX_CLASSES : list jsstring.

Ltac not_listed H :=
  repeat (apply elem_of_cons in H as [H|H]; [vm_compute in H; discriminate H|]);
  apply elem_of_nil in H; destruct H.

(** X12: the sanitizer is told to let [iframe] through exactly when
    [allowIframes] is set, or the defaults of the sanitizer or the caller's
    [allowedTags] list it; and [math] exactly when [allowMath] is set, or the
    defaults or the caller list it. *)
Theorem allowedTags_gated (opts : RenderOptions.t) :
  let config :=
    sanitizeOptions URL_href sanitize_defaults_allowedTags
      sanitize_defaults_allowedAttributes KATEX_CLASSES opts in
  let listed tag :=
    tag ∈ sanitize_defaults_allowedTags
    ∨ tag ∈ nullish_else (RenderOptions.allowedTags opts) [] in
  (js "iframe" ∈ sanitize_allowedTags config
   ↔ flag (RenderOptions.allowIframes opts) = true ∨ listed (js "iframe"))
  ∧ (js "math" ∈ sanitize_allowedTags config
     ↔ flag (RenderOptions.allowMath opts) = true ∨ listed (js "math")).
Proof.
  intros config listed. unfold config, listed, sanitizeOptions.
  cbn [sanitize_allowedTags]. unfold defaultAllowedTags.
  destruct (flag (RenderOptions.allowIframes opts)),
           (flag (RenderOptions.allowMath opts));
    rewrite !elem_of_app.
  all: repeat match goal with
       | |- context [?x ∈ (?a :: ?l)] =>
         first
           [ let H := fresh in
             assert (H : x ∈ (a :: l) ↔ False)
               by (split; [intros H'; not_listed H'|done]);
             rewrite H; clear H
           | let H := fresh in
             assert (H : x ∈ (a :: l) ↔ True)
               by (split; [done|intros _; apply elem_of_cons; by left]);
             rewrite H; clear H ]
       end.
  all: split; split; try tauto.
  all: intros [H|H]; [discriminate H|tauto].
Qed.

End SanitizerTags.

(** ** Blockquotes that stay blockquotes *)

Section AlertsDefault.
Variable toLowerCase : jsstring → jsstring.
Variable toUpperCase : jsstring → jsstring.
Variable super_blockquote : jsstring → jsstring.

(** X13: with alerts enabled, or on a text whose lower-cased form includes
    none of the listed markers, the blockquote rule is the default rule of
    the parser. *)
Theorem blockquote_default (this : Renderer.t) (text : jsstring) :
  Renderer.alertsEnabled this = true
  ∨ (∀ a, a ∈ alerts → includes (toLowerCase text) a = false) →
  Renderer.blockquote toLowerCase toUpperCase super_blockquote this text
  = super_blockquote text.
Proof.
  intros H. unfold Renderer.blockquote.
  pose proof (detect_in_last toLowerCase alerts text) as Hd.
  change (detect_in toLowerCase alerts text)
    with (detectAlert toLowerCase text) in Hd.
  destruct (detectAlert toLowerCase text) as [m|]; [|done].
  destruct H as [->|H]; [done|].
  destruct Hd as (i & Hi & Hm & _).
  apply list_elem_of_lookup_2 in Hi. rewrite (H m Hi) in Hm. discriminate.
Qed.

(** X14: the title that [convertAlert] makes of a marker [[!name]]: the
    brackets and the exclamation mark are dropped, the first code unit of the
    name goes through [toUpperCase] and the rest through [toLowerCase]. *)
Theorem convertAlert_marker (c : N) (name : jsstring) :
  convertAlert toLowerCase toUpperCase (js "[!" ++ c :: name ++ js "]")
  = toUpperCase [c] ++ toLowerCase name.
Proof.
  unfold convertAlert.
  assert (Hs : slice (js "[!" ++ c :: name ++ js "]") 2
                 (Z.of_nat (length (js "[!" ++ c :: name ++ js "]")) - 1)
               = c :: name).
  { unfold slice, slice_index.
    change (js "[!" ++ c :: name ++ js "]")
      with (91 :: 33 :: c :: name ++ [93]).
    cbn [length]. rewrite length_app. cbn [length].
    destruct (2 <? 0)%Z eqn:H2; [done|].
    destruct (Z.ltb_spec (Z.of_nat (S (S (S (length name + 1)))) - 1) 0);
      [lia|].
    replace (Z.to_nat (Z.min 2 (Z.of_nat (S (S (S (length name + 1)))))))
      with 2%nat by lia.
    replace (Z.to_nat (Z.min (Z.of_nat (S (S (S (length name + 1)))) - 1)
                         (Z.of_nat (S (S (S (length name + 1)))))) - 2)%nat
      with (S (length name)) by lia.
    cbn [drop take]. f_equal. by rewrite take_app_length. }
  rewrite Hs. unfold slice_from, slice_index.
  destruct (1 <? 0)%Z eqn:H1; [done|].
  replace (Z.to_nat (Z.min 1 (Z.of_nat (length (c :: name))))) with 1%nat
    by (cbn [length]; lia).
  reflexivity.
Qed.

End AlertsDefault.

Lemma blockquote_default_witness :
  Renderer.blockquote ascii_lower ascii_upper (λ s, js "<blockquote>" ++ s)
    (Renderer.Make false false lite None None false false false false true)
    (js "a plain quote")
  = js "<blockquote>a plain quote".
Proof.
  apply (blockquote_default ascii_lower ascii_upper
           (λ s, js "<blockquote>" ++ s)).
  right. intros a Ha. unfold alerts in Ha.
  repeat (apply elem_of_cons in Ha as [->|Ha]; [vm_compute; reflexivity|]).
  by apply elem_of_nil in Ha.
Defined.

(** ** YouTube addresses *)

Lemma rmatch_rep_char (p : N → bool) (n : nat) (s : jsstring)
    (c : option jsstring) (k : mcont) (res : mstate) :
  rmatch (RRep n (RChar p)) s c k = Some res →
  ∃ pre s', s = pre ++ s' ∧ length pre = n
            ∧ Forall (λ x, p x = true) pre ∧ k s' c = Some res.
Proof.
  revert s. induction n as [|n IH]; intros s H; cbn in H.
  - by exists [], s.
  - destruct s as [|x s]; [discriminate|]. destruct (p x) eqn:Hx; [|discriminate].
    apply IH in H as (pre & s' & -> & Hlen & Hall & Hk).
    exists (x :: pre), s'. cbn. rewrite Hlen. by repeat split; [constructor|].
Qed.

Lemma rmatch_seq_suffix (r1 r2 : regex) (s : jsstring) (c : option jsstring)
    (k : mcont) (res : mstate) :
  rmatch (RSeq r1 r2) s c k = Some res →
  ∃ s1 c1, s1 `suffix_of` s ∧ rmatch r2 s1 c1 k = Some res.
Proof. intros H. exact (rmatch_suffix r1 _ _ _ _ H). Qed.

Lemma match_here_youtube_id (s rest : jsstring) (c : option jsstring) :
  match_here youtubeRegex s = Some (rest, c) →
  ∃ before id, s = before ++ id ++ rest ∧ c = Some id ∧ length id = 11%nat
               ∧ Forall (λ x, isAlnumDashUnderscore x = true) id.
Proof.
  unfold match_here, youtubeRegex. intros H.
  apply rmatch_seq_suffix in H as (s1 & c1 & [b1 ->] & H).
  apply rmatch_seq_suffix in H as (s2 & c2 & [b2 ->] & H).
  apply rmatch_seq_suffix in H as (s3 & c3 & [b3 ->] & H).
  change (rmatch (RRep 11 (RChar isAlnumDashUnderscore)) s3 c3
            (λ s' _, Some (s', Some (take (length s3 - length s') s3)))
          = Some (rest, c)) in H.
  apply rmatch_rep_char in H as (id & s' & -> & Hlen & Hall & H).
  injection H as <- <-.
  exists (b1 ++ b2 ++ b3), id. rewrite <- !app_assoc. split; [done|].
  split; [|done]. f_equal. rewrite length_app.
  replace (length id + length s' - length s')%nat with (length id) by lia.
  by rewrite take_app_length.
Qed.

Lemma search_from_match (r : regex) (before s : jsstring) (m : rmatch_result) :
  search_from r before s = Some m →
  ∃ skipped, match_here r (drop (length skipped) s) = Some (m_after m, m_group1 m)
             ∧ s = skipped ++ m_text m ++ m_after m.
Proof.
  revert before. induction s as [|x s IH]; intros before H;
    rewrite search_from_unfold in H;
    (destruct (match_here r _) as [[rest c]|] eqn:Hm;
     [ injection H as <-; exists []; cbn [length drop m_after m_group1 m_text];
       split; [exact Hm|];
       symmetry; exact (suffix_take_length _ _ (match_here_suffix r _ _ c Hm))
     | ]).
  - discriminate.
  - apply IH in H as (skipped & Hh & Hs). exists (x :: skipped).
    split; [exact Hh|]. cbn. by rewrite <- Hs.
Qed.

(** X15: the video id that a match of the YouTube expression captures is a
    run of exactly eleven code units among letters, digits, [_] and [-],
    and it stands at the end of the matched text. *)
Theorem youtube_video_id (url : jsstring) (m : rmatch_result) :
  search youtubeRegex url = Some m →
  ∃ id, m_group1 m = Some id
        ∧ length id = 11%nat
        ∧ Forall (λ x, isAlnumDashUnderscore x = true) id
        ∧ id `suffix_of` m_text m.
Proof.
  intros H. apply search_from_match in H as (skipped & Hm & Hs).
  pose proof (match_here_suffix _ _ _ _ Hm) as Hsuf.
  apply match_here_youtube_id in Hm as (before & id & Hd & Hc & Hlen & Hall).
  exists id. repeat (split; [done|]).
  rewrite Hs, drop_app_length in Hd.
  rewrite app_assoc in Hd. apply app_inv_tail in Hd. by exists before.
Qed.

Lemma youtube_video_id_witness :
  ∃ m, search youtubeRegex (js "see https://youtu.be/dQw4w9WgXcQ?t=1") = Some m
       ∧ ∃ id, m_group1 m = Some id
               ∧ length id = 11%nat
               ∧ Forall (λ x, isAlnumDashUnderscore x = true) id
               ∧ id `suffix_of` m_text m.
Proof.
  eexists. split; [vm_compute; reflexivity|].
  apply (youtube_video_id (js "see https://youtu.be/dQw4w9WgXcQ?t=1")).
  vm_compute. reflexivity.
Defined.

(** X16: for a YouTube address outside [link] mode the image rule always
    returns the embed that [youtubeLinkToIframe] builds, the lite player in
    [lite] mode and the iframe in [embed] mode, and records on the instance
    whether the lite player was used; the [img] and [video] markup is not
    reached. *)
Theorem image_youtube_embed
    (contentType_extname : jsstring → option jsstring)
    (this : Renderer.t) (src : jsstring) (title : option jsstring)
    (alt : jsstring) :
  isYoutubeVideo src = true →
  Renderer.ytEmbed this ≠ link →
  let lite_mode := YoutubeHandling_eqb (Renderer.ytEmbed this) lite in
  ∃ markup,
    youtubeLinkToIframe src lite_mode (Some (or_else title alt)) = Some markup
    ∧ Renderer.image contentType_extname this src title alt
      = (markup, Renderer.set_lightYTEmbedImport this lite_mode)
    ∧ ∃ rest, markup = (if lite_mode then js "<lite-youtube" else js "<iframe")
                       ++ rest.
Proof.
  intros Hyt Hmode lite_mode. unfold Renderer.image. rewrite Hyt.
  assert (Hl : YoutubeHandling_eqb (Renderer.ytEmbed this) link = false)
    by (by destruct (Renderer.ytEmbed this)).
  rewrite Hl. cbn [andb]. fold lite_mode.
  unfold isYoutubeVideo, regex_test in Hyt.
  unfold youtubeLinkToIframe.
  destruct (search youtubeRegex src) as [m|]; [|discriminate].
  destruct lite_mode; eexists; (split; [reflexivity|]);
    (split; [reflexivity|]); eexists; reflexivity.
Qed.

Lemma image_youtube_embed_witness :
  let this :=
    Renderer.Make false false embed None None false false false true true in
  ∃ markup,
    youtubeLinkToIframe (js "https://youtu.be/dQw4w9WgXcQ") false
      (Some (js "alt")) = Some markup
    ∧ Renderer.image (λ _, None) this (js "https://youtu.be/dQw4w9WgXcQ")
        None (js "alt")
      = (markup, Renderer.set_lightYTEmbedImport this false)
    ∧ ∃ rest, markup = js "<iframe" ++ rest.
Proof.
  intros this.
  apply (image_youtube_embed (λ _, None) this
           (js "https://youtu.be/dQw4w9WgXcQ") None (js "alt")).
  - vm_compute. reflexivity.
  - discriminate.
Defined.

(** ** Finalizing twice *)

Lemma runs_below3_nlrun (k : nat) (s : jsstring) :
  runs_below3 k s = true → (nlrun s = 0 ∨ k + nlrun s < 3)%nat.
Proof.
  revert k. induction s as [|x s IH]; intros k H; [by left|].
  cbn in H |- *. destruct (LF =? x); [|by left].
  apply andb_true_iff in H as [Hk H]. apply Nat.ltb_lt in Hk.
  destruct (IH _ H) as [->|Hs]; right; lia.
Qed.

Lemma collapse_id (k : nat) (s : jsstring) :
  runs_below3 k s = true → collapse s = s.
Proof.
  revert k. induction s as [|x s IH]; intros k H; rewrite collapse_eq.
  - reflexivity.
  - destruct (runs_below3_nlrun _ _ H) as [H0|H0];
      (destruct (Nat.leb_spec 3 (nlrun (x :: s))); [lia|]);
      f_equal; cbn in H; destruct (LF =? x);
      try (apply andb_true_iff in H as [_ H]); by eapply IH.
Qed.

(** X17: finalizing is idempotent: a text that has been trimmed and had its
    runs of newlines replaced is left as it is by a second finalization. *)
Theorem finalize_idempotent (s : jsstring) :
  finalize (finalize s) = finalize s.
Proof.
  rewrite (finalize_collapse (finalize s)), (finalize_trimmed s).
  apply (collapse_id 0). rewrite finalize_collapse. apply collapse_runs.
Qed.

Section StripShape.
Variable emojify : jsstring → jsstring.
Variable sanitizeHtml : jsstring → SanitizeOptions → jsstring.
Variable lexer : jsstring → MarkedOptions → list Token.

(** X18: what [strip] returns is a text that neither starts nor ends with
    white space, followed by one newline: the output is a lone newline or
    starts with a code unit that is not white space, and the code unit before
    the final newline, if any, is not white space. *)
Theorem strip_trimmed (markdown : jsstring) (opts : RenderOptions.t) :
  ∃ body,
    strip emojify sanitizeHtml lexer markdown opts = Ok (body ++ nl)
    ∧ clean_ends body
    ∧ finalize body = body.
Proof.
  unfold strip.
  destruct (stripSplitBySections_spec emojify sanitizeHtml lexer markdown opts)
    as (sections & -> & _).
  cbn [mbind result_bind]. eexists. split; [reflexivity|]. split.
  - apply finalize_clean_ends.
  - rewrite (finalize_collapse (finalize _)), (finalize_trimmed _).
    apply (collapse_id 0). rewrite finalize_collapse. apply collapse_runs.
Qed.

End StripShape.

(** ** Merged attributes *)


(** ** Remote media *)

(** X20: an image whose address starts with [http://] or [https://] is never
    rendered as a [video] element, whatever its extension. *)
Theorem image_remote_not_video
    (contentType_extname : jsstring → option jsstring)
    (this : Renderer.t) (src : jsstring) (title : option jsstring)
    (alt : jsstring) :
  startsWith src (js "http://") = true ∨ startsWith src (js "https://") = true →
  startsWith (Renderer.image contentType_extname this src title alt).1
    (js "<video") = false.
Proof.
  intros Hremote.
  assert (Hlocal : isLocalPath src = false).
  { unfold isLocalPath. destruct Hremote as [-> | ->]; [done|].
    apply andb_false_r. }
  unfold Renderer.image. rewrite Hlocal. cbn [andb].
  destruct (isYoutubeVideo src); cbn [andb]; [|done].
  destruct (YoutubeHandling_eqb (Renderer.ytEmbed this) link); [done|].
  destruct (youtubeLinkToIframe _ _ _) as [out|] eqn:Hout; [|done].
  destruct (truthy out); [|done]. cbn [fst].
  apply youtubeLinkToIframe_head in Hout as [rest [-> | ->]]; reflexivity.
Qed.

Lemma image_remote_not_video_witness :
  startsWith
    (Renderer.image (λ _, Some (js "video/mp4"))
       (Renderer.Make false false lite None None false false false true true)
       (js "https://example.com/a.mp4") None (js "clip")).1
    (js "<video") = false.
Proof.
  apply (image_remote_not_video (λ _, Some (js "video/mp4"))).
  right. vm_compute. reflexivity.
Defined.

(** ** The header of the root section *)


Lemma for_of_preserves {A S : Type} (f : A → S → result S) (I : S → Prop)
    (l : list A) (s s' : S) :
  (∀ x s s', x ∈ l → I s → f x s = Ok s' → I s') →
  I s → for_of f l s = Ok s' → I s'.
Proof.
  revert s. induction l as [|x l IH]; intros s Hstep Hs Hrun; cbn in Hrun.
  - by injection Hrun as <-.
  - destruct (f x s) as [s1|] eqn:Hf; [|discriminate]. cbn in Hrun.
    apply (IH s1); [|by apply (Hstep x s); [left|..]|done].
    intros y t t' Hy. apply Hstep. by right.
Qed.

Section RootHeader.
Variable sanitizeHtml : jsstring → SanitizeOptions → jsstring.
Implicit Types (sections : list MarkdownSections.t) (index : nat).

Lemma append_at_inv n header sections index text sections' :
  walk_inv n header (sections, index) →
  append_at sections index header text = Ok sections' →
  walk_inv n header (sections', index).
Proof.
  intros ((root & Hroot & Hh) & Hi & Hg & Hn) Hrun. cbn [fst snd] in *.
  unfold append_at in Hrun.
  destruct (sections !! index) as [sec|] eqn:Hsec; [|discriminate].
  injection Hrun as <-. unfold walk_inv. cbn [fst snd].
  rewrite length_insert. split; [|done].
  destruct index as [|index].
  - destruct header; [specialize (Hg eq_refl); lia|].
    eexists. rewrite list_lookup_insert_eq by done. split; [done|]. cbn.
    by rewrite Hroot in Hsec; injection Hsec as <-.
  - exists root. by rewrite list_lookup_insert_ne.
Qed.

Lemma finalize_at_inv n header sections index sections' :
  walk_inv n header (sections, index) →
  finalize_at sections index = Ok sections' →
  walk_inv n header (sections', index).
Proof.
  intros ((root & Hroot & Hh) & Hi & Hg & Hn) Hrun. cbn [fst snd] in *.
  unfold finalize_at in Hrun.
  destruct (sections !! index) as [sec|] eqn:Hsec; [|discriminate].
  injection Hrun as <-. unfold walk_inv. cbn [fst snd].
  rewrite length_insert. split; [|done].
  destruct index as [|index].
  - eexists. rewrite list_lookup_insert_eq by done. split; [done|]. cbn.
    rewrite Hroot in Hsec; injection Hsec as <-. by rewrite Hh.
  - exists root. by rewrite list_lookup_insert_ne.
Qed.

Lemma enter_inv tokens header sections sections' :
  Forall (token_inv sanitizeHtml) tokens →
  root_header_empty sections →
  (header = true → 2 ≤ length sections)%nat →
  enter (stripToken sanitizeHtml header) tokens sections = Ok sections' →
  root_header_empty sections' ∧ (length sections ≤ length sections')%nat.
Proof.
  intros Hall Hroot Hlen Hrun. unfold enter in Hrun.
  destruct (for_of _ _ _) as [[s1 i1]|] eqn:Hfor; [|discriminate].
  cbn in Hrun. injection Hrun as <-.
  apply (for_of_preserves _ (walk_inv (length sections) header)) in Hfor.
  - destruct Hfor as (H1 & _ & _ & H2). done.
  - intros x [s i] st' Hx Hinv Hstep. rewrite Forall_forall in Hall.
    by apply (Hall x Hx _ _ _ _ _ Hinv).
  - destruct Hroot as (root & Hroot & Hh).
    assert (0 < length sections)%nat by (by apply lookup_lt_Some in Hroot).
    split; [by exists root|]. cbn [fst snd]. split; [lia|]. split; [|lia].
    intros Ht. specialize (Hlen Ht). lia.
Qed.

Lemma walk_inv_grow n header sections index sections' :
  walk_inv n header (sections, index) →
  root_header_empty sections' →
  (length sections ≤ length sections')%nat →
  walk_inv n header (sections', index).
Proof.
  intros (_ & Hi & Hg & Hn) Hroot Hlen. cbn [fst snd] in *.
  split; [done|]. cbn [fst snd]. repeat split; [lia|done|lia].
Qed.

Lemma walk_inv_guard n header sections index :
  walk_inv n header (sections, index) →
  (header = true → 2 ≤ length sections)%nat.
Proof.
  intros (_ & Hi & Hg & _) Ht. specialize (Hg Ht). cbn [fst snd] in *. lia.
Qed.

Lemma strip_cells_inv n header sections index cells sections' :
  Forall (Forall (token_inv sanitizeHtml)) cells →
  walk_inv n header (sections, index) →
  strip_cells sanitizeHtml header index cells sections = Ok sections' →
  walk_inv n header (sections', index).
Proof.
  intros Hall Hinv Hrun. unfold strip_cells in Hrun.
  destruct (for_of _ cells sections) as [s1|] eqn:Hfor; [|discriminate].
  cbn [mbind result_bind] in Hrun.
  apply (for_of_preserves _ (λ s, walk_inv n header (s, index))) in Hfor;
    [exact (append_at_inv _ _ _ _ _ _ Hfor Hrun)| |done].
  intros cell s s' Hcell Hs Hstep.
  destruct (stripTokens sanitizeHtml cell s header) as [s2|] eqn:He;
    [|discriminate].
  cbn [mbind result_bind] in Hstep. rewrite Forall_forall in Hall.
  apply enter_inv in He as [Hroot2 Hlen2];
    [|by apply Hall|by apply Hs|by apply (walk_inv_guard n _ _ index)].
  apply (append_at_inv _ _ _ _ _ _ (walk_inv_grow _ _ _ _ _ Hs Hroot2 Hlen2)
           Hstep).
Qed.

Lemma stripToken_inv token : token_inv sanitizeHtml token.
Proof.
  revert token. apply (Token_nested_ind (token_inv sanitizeHtml)); intros;
    intros n header sections index st' Hinv Hrun; simpl stripToken in Hrun;
    cbn [mbind result_bind] in Hrun.
  all: try (injection Hrun as <-; exact Hinv).
  all: try match type of Hrun with
       | append_at ?s ?i ?h ?t ≫= _ = _ =>
         let Ha := fresh "Ha" in
         destruct (append_at s i h t) as [s'|] eqn:Ha; [|discriminate];
         cbn in Hrun; injection Hrun as <-;
         exact (append_at_inv _ _ _ _ _ _ Hinv Ha)
       end.
  all: try match type of Hrun with
       | enter (stripToken sanitizeHtml ?h) ?ts ?s ≫= _ = _ =>
         let He := fresh "He" in
         destruct (enter (stripToken sanitizeHtml h) ts s)
           as [s1|] eqn:He; [|discriminate];
         cbn [mbind result_bind] in Hrun;
         apply enter_inv in He as [Hroot1 Hlen1];
           [ | done | by apply Hinv
             | first [ by intros [=] | by apply (walk_inv_guard n _ _ index) ] ];
         pose proof (walk_inv_grow _ _ _ _ _ Hinv Hroot1 Hlen1) as Hinv1
       end.
  all: try (injection Hrun as <-; exact Hinv1).
  - (* code *)
    case_bool_decide; cbn in Hrun; [injection Hrun as <-; exact Hinv|].
    destruct (append_at sections index header text) as [s'|] eqn:Ha;
      [|discriminate].
    cbn in Hrun. injection Hrun as <-.
    exact (append_at_inv _ _ _ _ _ _ Hinv Ha).
  - (* heading *)
    destruct (finalize_at sections index) as [s0|] eqn:Hf; [|discriminate].
    cbn [mbind result_bind] in Hrun.
    apply (finalize_at_inv _ _ _ _ _ Hinv) in Hf
      as ((root & Hroot & Hh) & Hi & Hg & Hn).
    cbn [fst snd] in Hi, Hg, Hn.
    destruct (enter _ _ _) as [s1|] eqn:He; [|discriminate].
    cbn in Hrun. injection Hrun as <-.
    apply enter_inv in He as [Hroot1 Hlen1]; [|done|..].
    + rewrite length_app in Hlen1. cbn [length] in Hlen1.
      split; [done|]. cbn [fst snd]. repeat split; lia.
    + exists root. by rewrite lookup_app_l by lia.
    + intros _. rewrite length_app. cbn [length]. lia.
  - (* table *)
    change ((strip_cells sanitizeHtml header index cells sections
             ≫= (λ sections,
                   for_of (strip_cells sanitizeHtml header index) rows
                     sections))
            ≫= (λ sections, Ok (sections, index)) = Ok st') in Hrun.
    destruct (strip_cells _ _ _ cells sections) as [s1|] eqn:Hc; [|discriminate].
    cbn [mbind result_bind] in Hrun.
    destruct (for_of _ rows s1) as [s2|] eqn:Hr; [|discriminate].
    cbn [mbind result_bind] in Hrun. injection Hrun as <-.
    apply (strip_cells_inv n) in Hc; [|done..].
    apply (for_of_preserves _ (λ s, walk_inv n header (s, index))) in Hr;
      [done| |done].
    intros row s s' Hrow Hs Hstep. rewrite Forall_forall in H0.
    by apply (strip_cells_inv n _ _ _ _ _ (H0 row Hrow) Hs).
  - (* list_item *)
    destruct (append_at s1 index header nl) as [s2|] eqn:Ha; [|discriminate].
    cbn in Hrun. injection Hrun as <-.
    exact (append_at_inv _ _ _ _ _ _ Hinv1 Ha).
Qed.

Lemma stripTokens_root tokens sections sections' :
  root_header_empty sections →
  stripTokens sanitizeHtml tokens sections false = Ok sections' →
  root_header_empty sections'.
Proof.
  intros Hroot Hrun. apply enter_inv in Hrun as [H _]; [done| |done|done].
  apply Forall_forall. intros t _. apply stripToken_inv.
Qed.


End RootHeader.

Section RootSection.
Variable emojify : jsstring → jsstring.
Variable sanitizeHtml : jsstring → SanitizeOptions → jsstring.
Variable lexer : jsstring → MarkedOptions → list Token.


End RootSection.


(** ** The code spans of the stripper *)

Lemma replace_newlines (s : jsstring) :
  replaceAll_string (RLit LF) (js " ") s = unbreak <$> s.
Proof.
  induction s as [|x s IH].
  - by apply replaceAll_string_nil.
  - cbn [fmap list_fmap]. unfold unbreak at 1.
    destruct (LF =? x) eqn:Hx.
    + rewrite (replaceAll_string_hit _ _ (x :: s) s None).
      * by rewrite IH.
      * unfold match_here. cbn [rmatch RLit]. by rewrite Hx.
      * cbn. lia.
    + rewrite replaceAll_string_miss; [by rewrite IH|].
      unfold match_here. cbn [rmatch RLit]. by rewrite Hx.
Qed.

Lemma search_from_char (p : N → bool) (before s : jsstring) :
  is_Some (search_from (RChar p) before s) ↔ ∃ x, x ∈ s ∧ p x = true.
Proof.
  revert before. induction s as [|x s IH]; intros before;
    rewrite search_from_unfold; unfold match_here; cbn [rmatch].
  - split; [by intros [? [=]]|]. intros (x & Hx & _). by apply elem_of_nil in Hx.
  - destruct (p x) eqn:Hp.
    + split; [|by eexists]. intros _. exists x. split; [by left|done].
    + rewrite IH. split; intros (y & Hy & Hpy); exists y.
      * split; [by right|done].
      * apply elem_of_cons in Hy as [->|Hy]; [congruence|done].
Qed.

Lemma test_char (p : N → bool) (s : jsstring) :
  regex_test (RChar p) s = true ↔ ∃ x, x ∈ s ∧ p x = true.
Proof.
  unfold regex_test, search. rewrite <- (search_from_char p []).
  destruct (search_from _ _ _); split; intros H;
    first [done | by eexists | by destruct H as [? [=]]].
Qed.

Lemma test_space_at_start (s : jsstring) :
  test_at_start (RLit SPACE) s = true ↔ head s = Some SPACE.
Proof.
  unfold test_at_start, match_here. destruct s as [|x s]; cbn [rmatch RLit head].
  - done.
  - destruct (N.eqb_spec SPACE x) as [Hx|Hx]; split; try done.
    + intros _. by rewrite Hx.
    + intros [= H]. done.
Qed.

Lemma test_space_at_end (s : jsstring) :
  test_until_end (RLit SPACE) s = true ↔ last s = Some SPACE.
Proof.
  induction s as [|x s IH]; cbn [test_until_end rmatch RLit]; [done|].
  destruct s as [|y s].
  - cbn. destruct (N.eqb_spec SPACE x) as [Hx|Hx]; cbn; split; try done.
    + intros _. by rewrite Hx.
    + intros [= H]. done.
  - rewrite last_cons_cons, <- IH.
    destruct (SPACE =? x); [|done]. done.
Qed.

Lemma substring_inner (a b : N) (mid : jsstring) :
  substring (a :: mid ++ [b]) 1 (Z.of_nat (length (a :: mid ++ [b])) - 1)
  = mid.
Proof.
  unfold substring, clamp. cbn [length]. rewrite length_app. cbn [length].
  replace (Z.to_nat (Z.min (Z.max 1 0) (Z.of_nat (S (length mid + 1)))))
    with 1%nat by lia.
  replace (Z.to_nat (Z.min (Z.max (Z.of_nat (S (length mid + 1)) - 1) 0)
                       (Z.of_nat (S (length mid + 1)))))
    with (S (length mid)) by lia.
  replace (Nat.max 1 (S (length mid)) - Nat.min 1 (S (length mid)))%nat
    with (length mid) by lia.
  replace (Nat.min 1 (S (length mid))) with 1%nat by lia.
  cbn [drop]. by rewrite drop_0, take_app_length.
Qed.

Lemma unbreak_no_newline (s : jsstring) : LF ∉ unbreak <$> s.
Proof.
  intros H. apply list_elem_of_fmap in H as (x & Hx & _).
  unfold unbreak in Hx. destruct (N.eqb_spec LF x); [discriminate Hx|done].
Qed.

(** X22: the text of a code span token of the stripper is the captured text
    with every newline turned into a space, less one space at each end when
    it has a space at both ends and a code unit that is not a space; it
    contains no newline, and a text of spaces alone is kept whole. *)
Theorem codespan_text
    (rules_inline_code_exec : jsstring → option (jsstring * jsstring))
    (src cap0 cap2 : jsstring) :
  rules_inline_code_exec src = Some (cap0, cap2) →
  ∃ text,
    StripTokenizer.codespan rules_inline_code_exec src
    = Some (T_codespan text)
    ∧ (LF ∉ text)
    ∧ ((unbreak <$> cap2 = SPACE :: text ++ [SPACE]
        ∧ (∃ x, x ∈ text ∧ x ≠ SPACE))
       ∨ (unbreak <$> cap2 = text
          ∧ (Forall (λ x, x = SPACE) text
             ∨ head text ≠ Some SPACE ∨ last text ≠ Some SPACE))).
Proof.
  intros Hcap. unfold StripTokenizer.codespan. rewrite Hcap, replace_newlines.
  pose proof (unbreak_no_newline cap2) as Hnl.
  set (t := unbreak <$> cap2) in *. clearbody t.
  destruct (regex_test _ t) eqn:Hnon; cbn [andb].
  - apply test_char in Hnon as (x & Hx & Hpx).
    apply negb_true_iff, N.eqb_neq in Hpx.
    destruct (test_at_start _ t) eqn:Hhead; cbn [andb].
    + destruct (test_until_end _ t) eqn:Hlast.
      * apply test_space_at_start in Hhead. apply test_space_at_end in Hlast.
        destruct t as [|a t]; [done|]. injection Hhead as ->.
        destruct (decide (t = [])) as [->|Hne].
        { apply list_elem_of_singleton in Hx. done. }
        destruct (exists_last Hne) as (mid & b & ->).
        rewrite last_cons, last_snoc in Hlast. injection Hlast as ->.
        rewrite substring_inner. exists mid. split; [done|]. split.
        { intros H. apply Hnl. right. apply elem_of_app. by left. }
        left. split; [done|]. exists x. split; [|done].
        apply elem_of_cons in Hx as [->|Hx]; [done|].
        apply elem_of_app in Hx as [Hx|Hx]; [done|].
        by apply list_elem_of_singleton in Hx.
      * exists t. split; [done|]. split; [done|]. right. split; [done|].
        right; right. intros H. apply test_space_at_end in H. congruence.
    + exists t. split; [done|]. split; [done|]. right. split; [done|].
      right; left. intros H. apply test_space_at_start in H. congruence.
  - exists t. split; [done|]. split; [done|]. right. split; [done|]. left.
    apply Forall_forall. intros x Hx. destruct (decide (x = SPACE)); [done|].
    assert (Ht : regex_test (RChar (λ c, negb (c =? SPACE))) t = true).
    { apply test_char. exists x. split; [done|].
      by apply negb_true_iff, N.eqb_neq. }
    congruence.
Qed.

Lemma codespan_text_witness :
  ∃ text,
    StripTokenizer.codespan (λ s, Some (s, js " a" ++ nl ++ js "b "))
      (js "` a b `")
    = Some (T_codespan text)
    ∧ (LF ∉ text).
Proof.
  destruct (codespan_text (λ s, Some (s, js " a" ++ nl ++ js "b "))
              (js "` a b `") (js "` a b `") (js " a" ++ nl ++ js "b ")
              eq_refl) as (text & H1 & H2 & _).
  by exists text.
Defined.

(** ** The line break after a summary *)

Lemma endsWith_suffix (s p : jsstring) :
  endsWith s p = true ↔ p `suffix_of` s.
Proof.
  unfold endsWith. rewrite startsWith_take. split.
  - intros H. exists (reverse (drop (length (reverse p)) (reverse s))).
    apply (inj reverse). rewrite reverse_app, reverse_involutive.
    rewrite <- H at 1. symmetry. apply take_drop.
  - intros [pre ->]. rewrite reverse_app. by rewrite take_app_length.
Qed.

Lemma includes_infix (s pre p post : jsstring) :
  s = pre ++ p ++ post → includes s p = true.
Proof.
  intros ->. induction pre as [|x pre IH].
  - assert (H : startsWith (p ++ post) p = true)
      by (apply startsWith_take; by rewrite take_app_length).
    destruct (p ++ post); cbn [app includes]; cbn [app] in H; by rewrite H.
  - cbn [app includes]. rewrite IH. apply orb_true_r.
Qed.

(** The break does not overlap itself: a text that starts with the break and
    ends with it is the break, or has a second one after the first. *)
Lemma summary_break_apart (post : jsstring) :
  SUMMARY_BREAK `suffix_of` (SUMMARY_BREAK ++ post) →
  post = [] ∨ SUMMARY_BREAK `suffix_of` post.
Proof.
  intros [pre H].
  destruct (decide (length SUMMARY_BREAK ≤ length post)%nat) as [Hle|Hgt].
  - right. exists (drop (length SUMMARY_BREAK) pre).
    apply (f_equal (drop (length SUMMARY_BREAK))) in H.
    rewrite drop_app_length in H. rewrite H.
    rewrite drop_app_le; [done|].
    apply (f_equal length) in H. rewrite length_drop, !length_app in H. lia.
  - left. destruct post as [|x post]; [done|]. exfalso.
    change SUMMARY_BREAK
      with [60; 47; 115; 117; 109; 109; 97; 114; 121; 62; 10; 10] in *.
    cbn [length] in Hgt.
    assert (Hlen : length pre = S (length post)).
    { apply (f_equal length) in H. rewrite !length_app in H.
      cbn [length] in H. lia. }
    apply (f_equal (λ l, l !! S (length post))) in H.
    rewrite (lookup_app_r pre) in H by lia.
    rewrite lookup_app_l in H by (cbn [length]; lia).
    replace (S (length post) - length pre)%nat with 0%nat in H by lia.
    generalize dependent (length post). intros n H Hgt _.
    do 11 (destruct n as [|n]; [vm_compute in H; discriminate H|]).
    cbn [length] in Hgt. lia.
Qed.

Lemma suffix_app_short (p a b : jsstring) :
  p `suffix_of` (a ++ b) → (length p ≤ length b)%nat → p `suffix_of` b.
Proof.
  intros [q H] Hlen. exists (drop (length a) q).
  assert (Hq : (length a ≤ length q)%nat).
  { apply (f_equal length) in H. rewrite !length_app in H. lia. }
  apply (f_equal (drop (length a))) in H. rewrite drop_app_length in H.
  rewrite H. by apply drop_app_le.
Qed.

(** X23: on an [html] token whose text ends with a summary end tag and two
    newlines, the hook of [render] drops one newline after the first summary
    end tag that two newlines follow in the text. When that is the one at the
    end, the text no longer ends with two newlines; when an earlier one
    exists, the text still ends with the summary end tag and two newlines. *)
Theorem walkTokens_first_break (text : jsstring) :
  endsWith text SUMMARY_BREAK = true →
  ∃ pre post,
    text = pre ++ SUMMARY_BREAK ++ post
    ∧ (∀ k, (k < length pre)%nat → ¬ occurs_at text SUMMARY_BREAK k)
    ∧ walkTokens (T_html text) = T_html (pre ++ js "</summary>" ++ nl ++ post)
    ∧ endsWith (pre ++ js "</summary>" ++ nl ++ post) SUMMARY_BREAK
      = negb (bool_decide (post = [])).
Proof.
  intros Hend. unfold walkTokens. rewrite Hend.
  apply endsWith_suffix in Hend. pose proof Hend as [q Hq].
  destruct (indexOf_from_first text SUMMARY_BREAK 0) as (n & Hn & Hocc & Hfirst).
  { apply (includes_infix _ q _ []). by rewrite app_nil_r. }
  unfold occurs_at in Hocc.
  set (pre := take n text). set (post := drop (n + length SUMMARY_BREAK) text).
  assert (Hn' : (n ≤ length text)%nat).
  { destruct (decide (n ≤ length text)%nat); [done|].
    rewrite drop_ge in Hocc by lia. discriminate Hocc. }
  assert (Htext : text = pre ++ SUMMARY_BREAK ++ post).
  { unfold pre, post. rewrite <- Hocc at 1.
    rewrite <- drop_drop, take_drop. by rewrite take_drop. }
  exists pre, post. split; [exact Htext|]. split.
  { intros k Hk. apply Hfirst. unfold pre in Hk. rewrite length_take in Hk. lia. }
  split.
  { unfold replace_first, indexOf. rewrite Hn.
    destruct (Z.ltb_spec (0 + Z.of_nat n) 0); [lia|].
    replace (Z.to_nat (0 + Z.of_nat n)) with n by lia.
    fold pre post. by rewrite <- app_assoc. }
  rewrite Htext in Hend.
  apply suffix_app_short in Hend; [|rewrite length_app; lia].
  apply summary_break_apart in Hend as [->|Hpost].
  - rewrite bool_decide_eq_true_2 by done. cbn [negb].
    apply not_true_is_false. intros [q' H]%endsWith_suffix.
    rewrite app_nil_r, app_assoc in H. apply (f_equal reverse) in H.
    rewrite !reverse_app in H.
    change (reverse nl) with [LF] in H.
    change (reverse SUMMARY_BREAK)
      with (LF :: LF :: reverse (js "</summary>")) in H.
    change (reverse (js "</summary>"))
      with (62 :: reverse (js "</summary")) in H.
    cbn [app] in H. injection H as H _. discriminate H.
  - assert (Hne : post ≠ []).
    { intros ->. destruct Hpost as [q' H]. by destruct q'. }
    rewrite bool_decide_eq_false_2 by done. cbn [negb].
    apply endsWith_suffix. rewrite !app_assoc. by apply suffix_app_r.
Qed.

Lemma walkTokens_first_break_witness :
  ∃ pre post,
    js "<summary>a</summary>" ++ nl ++ nl ++ js "<summary>b</summary>"
      ++ nl ++ nl
    = pre ++ SUMMARY_BREAK ++ post
    ∧ walkTokens
        (T_html (js "<summary>a</summary>" ++ nl ++ nl
                 ++ js "<summary>b</summary>" ++ nl ++ nl))
      = T_html (pre ++ js "</summary>" ++ nl ++ post)
    ∧ endsWith (pre ++ js "</summary>" ++ nl ++ post) SUMMARY_BREAK
      = negb (bool_decide (post = [])).
Proof.
  destruct (walkTokens_first_break
              (js "<summary>a</summary>" ++ nl ++ nl
               ++ js "<summary>b</summary>" ++ nl ++ nl))
    as (pre & post & H1 & _ & H2 & H3).
  - vm_compute. reflexivity.
  - by exists pre, post.
Defined.
